(** * Token-description scraping and enrichment pipeline

    A shallow embedding of [PumpFunScraper] (lib/pump-scraper) and of the
    list service ([getPumpList], [enhanceTokensWithDescriptions]) together
    with the properties of the description filter, the extractor, the
    scraper cache, the batch orchestrator and the list enrichment.

    Strings.  A JavaScript string is a sequence of UTF-16 code units.  The
    embedding uses [string], whose characters are 8-bit: it covers exactly
    the strings whose code units lie in the range 0..255 (ASCII and the
    Latin-1 supplement).  On that range [toLowerCase], [trim], the classes
    [\d], [\s], [\w] and the case folding of the [/i] flag are modelled as
    ECMAScript defines them. *)

From Stdlib Require Import Ascii String NArith Bool.
From stdpp Require Import gmap strings list pretty.

Local Open Scope bool_scope.
#[local] Set Warnings "-clear-no-such-hyp".

(** ** The fragment of the JavaScript runtime used by the code *)

Module JS.

Definition code (c : ascii) : N := N_of_ascii c.

Definition between (lo hi : N) (c : ascii) : bool :=
  ((lo <=? code c) && (code c <=? hi))%N.

(** [\d] *)
Definition isDigit (c : ascii) : bool := between 48 57 c.

(** WhiteSpace and LineTerminator code units below 256: TAB, LF, VT, FF,
    CR, SP and NBSP.  This is the set of [\s] and of [trim]. *)
Definition isWhiteSpace (c : ascii) : bool :=
  between 9 13 c || (code c =? 32)%N || (code c =? 160)%N.

(** [\w] is [A-Za-z0-9_]. *)
Definition isWordChar (c : ascii) : bool :=
  between 65 90 c || between 97 122 c || isDigit c || (code c =? 95)%N.

(** Lower-case mapping of one code unit: A-Z and the capital letters
    U+00C0..U+00DE, the multiplication sign U+00D7 excepted. *)
Definition lowerChar (c : ascii) : ascii :=
  if between 65 90 c || (between 192 222 c && negb (code c =? 215)%N)
  then ascii_of_N (code c + 32) else c.

(** The [Canonicalize] operation of a regular expression with the [i]
    flag and without the [u] flag: the upper-case mapping, kept only
    when it is one code unit.  U+00B5 and U+00FF map outside the
    range to code units no other character of the range maps to, and
    U+00DF maps to two code units: the three are left as they are. *)
Definition canonicalize (c : ascii) : ascii :=
  if between 97 122 c || (between 224 254 c && negb (code c =? 247)%N)
  then ascii_of_N (code c - 32) else c.

Fixpoint toLowerCase (s : string) : string :=
  match s with
  | EmptyString => EmptyString
  | String c s' => String (lowerChar c) (toLowerCase s')
  end.

Fixpoint trimStart (s : string) : string :=
  match s with
  | EmptyString => EmptyString
  | String c s' => if isWhiteSpace c then trimStart s' else s
  end.

Fixpoint trimEnd (s : string) : string :=
  match s with
  | EmptyString => EmptyString
  | String c s' =>
      match trimEnd s' with
      | EmptyString => if isWhiteSpace c then EmptyString else String c EmptyString
      | t => String c t
      end
  end.

Definition trim (s : string) : string := trimEnd (trimStart s).

(** [s.includes(sub)] *)
Fixpoint includes (s sub : string) : bool :=
  String.prefix sub s ||
  match s with
  | EmptyString => false
  | String _ s' => includes s' sub
  end.

(** [s.split(sep)] for a separator of one character. *)
Fixpoint split (sep : ascii) (s : string) : list string :=
  match s with
  | EmptyString => [EmptyString]
  | String c s' =>
      if Ascii.eqb c sep then EmptyString :: split sep s'
      else match split sep s' with
           | p :: ps => String c p :: ps
           | [] => [String c EmptyString]
           end
  end.

(** [s.replace(/\s+/g, ' ')]: every maximal run of white space becomes
    one space; [inRun] tells that the previous character was white
    space. *)
Fixpoint collapseFrom (inRun : bool) (s : string) : string :=
  match s with
  | EmptyString => EmptyString
  | String c s' =>
      if isWhiteSpace c
      then if inRun then collapseFrom true s'
           else String " "%char (collapseFrom true s')
      else String c (collapseFrom false s')
  end.

Definition collapseWhiteSpace (s : string) : string := collapseFrom false s.

(** JavaScript truthiness of a string. *)
Definition truthy (s : string) : bool := negb (String.eqb s EmptyString).

(** *** Regular expressions

    The syntax covers the constructs of the patterns in the source.  A
    position in the subject is the character before it, if any, and the
    rest of the subject. *)

Inductive cclass : Type :=
| ClsDigit
| ClsSpace
| ClsWord
| ClsOneOf (cs : list ascii).

Inductive regex : Type :=
| Lit (c : ascii)
| Class (k : cclass)
| Cat (r1 r2 : regex)
| Or (r1 r2 : regex)
| Opt (r : regex)
| Star (r : regex)
| Plus (r : regex)
| Eps
| Bos
| Eos
| Boundary.

Definition charEq (ignoreCase : bool) (c d : ascii) : bool :=
  if ignoreCase then Ascii.eqb (canonicalize c) (canonicalize d)
  else Ascii.eqb c d.

Definition inClass (ignoreCase : bool) (k : cclass) (d : ascii) : bool :=
  match k with
  | ClsDigit => isDigit d
  | ClsSpace => isWhiteSpace d
  | ClsWord => isWordChar d
  | ClsOneOf cs => existsb (fun c => charEq ignoreCase c d) cs
  end.

Definition wordBefore (prev : option ascii) : bool :=
  match prev with Some c => isWordChar c | None => false end.

Definition wordAfter (s : string) : bool :=
  match s with String c _ => isWordChar c | EmptyString => false end.

Definition cont : Type := option ascii -> string -> bool.

(** Greedy iteration of [step]; an iteration that consumes nothing is
    refused, as in ECMAScript's RepeatMatcher, so [String.length s]
    rounds are enough. *)
Fixpoint iterate (step : option ascii -> string -> cont -> bool)
    (fuel : nat) (prev : option ascii) (s : string) (k : cont) : bool :=
  match fuel with
  | O => k prev s
  | S fuel' =>
      step prev s (fun p t =>
        (String.length t <? String.length s)%nat && iterate step fuel' p t k)
      || k prev s
  end.

Fixpoint matchAt (ignoreCase : bool) (r : regex) (prev : option ascii)
    (s : string) (k : cont) {struct r} : bool :=
  match r with
  | Lit c =>
      match s with
      | String d s' => charEq ignoreCase c d && k (Some d) s'
      | EmptyString => false
      end
  | Class cl =>
      match s with
      | String d s' => inClass ignoreCase cl d && k (Some d) s'
      | EmptyString => false
      end
  | Cat r1 r2 =>
      matchAt ignoreCase r1 prev s (fun p t => matchAt ignoreCase r2 p t k)
  | Or r1 r2 => matchAt ignoreCase r1 prev s k || matchAt ignoreCase r2 prev s k
  | Opt r1 => matchAt ignoreCase r1 prev s k || k prev s
  | Star r1 => iterate (matchAt ignoreCase r1) (String.length s) prev s k
  | Plus r1 =>
      matchAt ignoreCase r1 prev s (fun p t =>
        iterate (matchAt ignoreCase r1) (String.length t) p t k)
  | Eps => k prev s
  | Bos => match prev with None => k prev s | Some _ => false end
  | Eos => match s with EmptyString => k prev s | String _ _ => false end
  | Boundary => xorb (wordBefore prev) (wordAfter s) && k prev s
  end.

Fixpoint searchFrom (ignoreCase : bool) (r : regex) (prev : option ascii)
    (s : string) : bool :=
  matchAt ignoreCase r prev s (fun _ _ => true) ||
  match s with
  | EmptyString => false
  | String c s' => searchFrom ignoreCase r (Some c) s'
  end.

Record RegExp : Type := { source : regex; ignoreCase : bool }.

(** [re.test(s)], and the truthiness of [s.match(re)], for a pattern
    without the [g] flag. *)
Definition test (re : RegExp) (s : string) : bool :=
  searchFrom (ignoreCase re) (source re) None s.

(** Builders for the pattern literals. *)
Fixpoint lit (s : string) : regex :=
  match s with
  | EmptyString => Eps
  | String c EmptyString => Lit c
  | String c s' => Cat (Lit c) (lit s')
  end.

Fixpoint seq (rs : list regex) : regex :=
  match rs with
  | [] => Eps
  | [r] => r
  | r :: rs' => Cat r (seq rs')
  end.

Fixpoint alt (r : regex) (rs : list regex) : regex :=
  match rs with
  | [] => r
  | r' :: rs' => Or r (alt r' rs')
  end.

End JS.

(** ** The description filter of [PumpFunScraper] *)

Module Scraper.
Import JS.

Record ScraperConfig : Type := {
  rateLimitDelay : nat;
  batchSize : nat;
  batchDelay : nat;
  maxDescriptionLength : nat;
  minDescriptionLength : nat;
  requestTimeout : nat
}.

Definition config : ScraperConfig := {|
  rateLimitDelay := 75;
  batchSize := 50;
  batchDelay := 0;
  maxDescriptionLength := 2500;
  minDescriptionLength := 0;
  requestTimeout := 4000
|}.

Definition baseUrl : string := "https://pump.fun".

Definition noDescription : string := "No description available".

(** [(second|minute|hour|day|week|month|year)s?] *)
Definition unit_ : regex :=
  Cat (alt (lit "second")
         [lit "minute"; lit "hour"; lit "day"; lit "week"; lit "month";
          lit "year"])
      (Opt (Lit "s")).

Definition digits : regex := Plus (Class ClsDigit).
Definition spaces : regex := Plus (Class ClsSpace).

Definition timePatterns : list RegExp := [
  (* /\b\d+\s+(second|minute|hour|day|week|month|year)s?\s+ago\b/i *)
  {| source := seq [Boundary; digits; spaces; unit_; spaces; lit "ago"; Boundary];
     ignoreCase := true |};
  (* /\babout\s+\d+\s+(second|minute|hour|day|week|month|year)s?\s+ago\b/i *)
  {| source := seq [Boundary; lit "about"; spaces; digits; spaces; unit_;
                    spaces; lit "ago"; Boundary];
     ignoreCase := true |};
  (* /\b\d+[mhd]\s+ago\b/i *)
  {| source := seq [Boundary; digits; Class (ClsOneOf ["m"; "h"; "d"]%char);
                    spaces; lit "ago"; Boundary];
     ignoreCase := true |};
  (* /^\s*\d+\s+(second|minute|hour|day|week|month|year)s?\s+ago\s*$/i *)
  {| source := seq [Bos; Star (Class ClsSpace); digits; spaces; unit_; spaces;
                    lit "ago"; Star (Class ClsSpace); Eos];
     ignoreCase := true |};
  (* /^(just now|moments? ago|recently created?)$/i *)
  {| source := seq [Bos;
                    alt (lit "just now")
                      [seq [lit "moment"; Opt (Lit "s"); lit " ago"];
                       seq [lit "recently create"; Opt (Lit "d")]];
                    Eos];
     ignoreCase := true |};
  (* /^(yesterday|today|tomorrow)$/i *)
  {| source := seq [Bos; alt (lit "yesterday") [lit "today"; lit "tomorrow"]; Eos];
     ignoreCase := true |}
].

Definition commonExclusions : list string := [
  "default description";
  "time since creation";
  "creation time"
].

Definition uiExclusions : list string := [
  "connect wallet";
  "copy address";
  "click here";
  "sign in";
  "log in";
  "loading";
  "view more";
  "show more";
  "read more";
  "taking too long to load";
  "try refresh";
  "refresh the page";
  "page not found";
  "error loading";
  "failed to load";
  "try again"
].

(** [timePatterns.some(pattern => pattern.test(text))] *)
Definition matchesTimePattern (text : string) : bool :=
  existsb (fun pattern => test pattern text) timePatterns.

Definition isValidDescription (text : string) (isMetaTag : bool) : bool :=
  if negb (truthy text)
     || (String.length text <? minDescriptionLength config)%nat
     || (maxDescriptionLength config <? String.length text)%nat
  then false
  else
    let lowerText := toLowerCase text in
    if matchesTimePattern text then false
    else if existsb (fun exclusion => String.eqb lowerText exclusion) commonExclusions
    then false
    else if negb isMetaTag
            && existsb (fun exclusion => includes lowerText exclusion) uiExclusions
    then false
    else true.

(** [/^\d+[.,]\d+/] *)
Definition pureNumber : RegExp :=
  {| source := seq [Bos; digits; Class (ClsOneOf ["."; ","]%char); digits];
     ignoreCase := false |}.

(** [/^\w+\s*$/] *)
Definition singleWord : RegExp :=
  {| source := seq [Bos; Plus (Class ClsWord); Star (Class ClsSpace); Eos];
     ignoreCase := false |}.

Definition isValidTextBlock (text : string) : bool :=
  if negb (isValidDescription text false) then false
  else
    let lowerText := toLowerCase text in
    negb (test pureNumber text)
    && negb (test singleWord text)
    && (2 <? length (split " " text))%nat
    && negb (includes lowerText "market cap")
    && negb (includes lowerText "loading")
    && negb (includes lowerText "refresh")
    && negb (includes lowerText "try again").

(** [text.replace(/\s+/g, ' ').trim()] *)
Definition normalize (text : string) : string :=
  trim (collapseWhiteSpace text).

End Scraper.

(** ** The parsed document, as cheerio presents it

    [cheerio.load] is the library's HTML parser and stays a parameter
    ([load] below).  A document is the forest under the root; element
    and attribute names are in lower case, as the parser leaves them. *)

Module Dom.

#[warnings="-register-all"] Inductive node : Type :=
| Text (data : string)
| Element (name : string) (attribs : list (string * string)) (children : list node).

Definition document : Type := list node.

Fixpoint getAttribute (name : string) (attribs : list (string * string))
    : option string :=
  match attribs with
  | [] => None
  | (k, v) :: rest => if String.eqb k name then Some v else getAttribute name rest
  end.

(** [[name="value"]] and [[name*="value"]] *)
Inductive attrTest : Type :=
| AttrEquals (name value : string)
| AttrContains (name value : string).

Record compound : Type := {
  tagName : option string;
  attribute : option attrTest
}.

(** A compound selector, [ancestor descendant], or a comma-separated
    group of compound selectors. *)
Inductive selector : Type :=
| Single (c : compound)
| Descendant (ancestor c : compound)
| Group (cs : list compound).

Definition attrHolds (t : attrTest) (attribs : list (string * string)) : bool :=
  match t with
  | AttrEquals name value =>
      match getAttribute name attribs with
      | Some v => String.eqb v value
      | None => false
      end
  | AttrContains name value =>
      match getAttribute name attribs with
      | Some v => JS.includes v value
      | None => false
      end
  end.

Definition matchesCompound (c : compound) (name : string)
    (attribs : list (string * string)) : bool :=
  match tagName c with Some t => String.eqb name t | None => true end
  && match attribute c with Some t => attrHolds t attribs | None => true end.

(** The elements under [n], [n] included, that match [sel], in
    document order; [inside] tells that an ancestor of [n] matches the
    ancestor part of a descendant selector. *)
Fixpoint selectNode (sel : selector) (inside : bool) (n : node) : list node :=
  match n with
  | Text _ => []
  | Element name attribs children =>
      let here :=
        match sel with
        | Single c => matchesCompound c name attribs
        | Descendant _ c => inside && matchesCompound c name attribs
        | Group cs => existsb (fun c => matchesCompound c name attribs) cs
        end in
      let inside' :=
        match sel with
        | Descendant a _ => inside || matchesCompound a name attribs
        | _ => inside
        end in
      (if here then [n] else [])
      ++ List.flat_map (selectNode sel inside') children
  end.

(** [$(selector)] *)
Definition select (sel : selector) (doc : document) : list node :=
  List.flat_map (selectNode sel false) doc.

(** [$(selector).attr(name)]: the attribute of the first match. *)
Definition attr (matched : list node) (name : string) : option string :=
  match matched with
  | Element _ attribs _ :: _ => getAttribute name attribs
  | _ => None
  end.

(** [$(element).text()]: the text of all descendants. *)
Fixpoint text (n : node) : string :=
  match n with
  | Text data => data
  | Element _ _ children =>
      fold_right String.append EmptyString (List.map text children)
  end.

Definition isElement (n : node) : bool :=
  match n with Element _ _ _ => true | Text _ => false end.

(** [$(element).children()] *)
Definition children (n : node) : list node :=
  match n with
  | Element _ _ cs => List.filter isElement cs
  | Text _ => []
  end.

End Dom.

(** ** The extractor *)

Module Extractor.
Import JS Scraper Dom.

Definition tag (t : string) : compound :=
  {| tagName := Some t; attribute := None |}.

Definition metaSelectors : list selector := [
  (* meta[name="description"] *)
  Single {| tagName := Some "meta"; attribute := Some (AttrEquals "name" "description") |};
  (* meta[property="og:description"] *)
  Single {| tagName := Some "meta";
            attribute := Some (AttrEquals "property" "og:description") |};
  (* meta[name="twitter:description"] *)
  Single {| tagName := Some "meta";
            attribute := Some (AttrEquals "name" "twitter:description") |}
].

Definition structuralSelectors : list selector := [
  (* [class*="description"] *)
  Single {| tagName := None; attribute := Some (AttrContains "class" "description") |};
  (* [data-testid*="description"] *)
  Single {| tagName := None;
            attribute := Some (AttrContains "data-testid" "description") |};
  (* main p *)
  Descendant (tag "main") (tag "p");
  (* [class*="about"] *)
  Single {| tagName := None; attribute := Some (AttrContains "class" "about") |}
].

(** [p, div, span] *)
Definition textElements : selector := Group [tag "p"; tag "div"; tag "span"].

(** The loop over [metaSelectors]; [Some] is an early return. *)
Fixpoint metaLoop (doc : document) (selectors : list selector) : option string :=
  match selectors with
  | [] => None
  | sel :: rest =>
      match attr (select sel doc) "content" with
      | Some content =>
          if truthy content && isValidDescription content true
          then Some (normalize content)
          else metaLoop doc rest
      | None => metaLoop doc rest
      end
  end.

(** The inner loop over the elements one structural selector matches. *)
Fixpoint elementLoop (elements : list node) : option string :=
  match elements with
  | [] => None
  | el :: rest =>
      let t := trim (text el) in
      if isValidDescription t false then Some (normalize t)
      else elementLoop rest
  end.

Fixpoint structuralLoop (doc : document) (selectors : list selector)
    : option string :=
  match selectors with
  | [] => None
  | sel :: rest =>
      match elementLoop (select sel doc) with
      | Some found => Some found
      | None => structuralLoop doc rest
      end
  end.

Fixpoint textBlockLoop (elements : list node) : option string :=
  match elements with
  | [] => None
  | element :: rest =>
      let t := trim (text element) in
      let hasOnlyTextChildren := (length (children element) =? 0)%nat in
      if hasOnlyTextChildren && isValidTextBlock t then Some (normalize t)
      else textBlockLoop rest
  end.

Definition findTextBlocks (doc : document) : option string :=
  textBlockLoop (select textElements doc).

Definition extractFrom (doc : document) : option string :=
  match metaLoop doc metaSelectors with
  | Some found => Some found
  | None =>
      match structuralLoop doc structuralSelectors with
      | Some found => Some found
      | None => findTextBlocks doc
      end
  end.

(** [None] is [null].  [load html = None] stands for an exception of
    the parser, which the [catch] turns into [null]. *)
Definition extractDescription (load : string -> option document) (html : string)
    : option string :=
  match load html with
  | Some doc => extractFrom doc
  | None => None
  end.

End Extractor.

(** ** Promises, responses and the network *)

Module Net.

(** A thrown value: an [Error] with its message, or anything else. *)
Inductive thrown : Type :=
| ErrorObject (message : string)
| OtherValue.

(** How a promise settles. *)
Inductive settled (A : Type) : Type :=
| Fulfilled (value : A)
| Rejected (reason : thrown).
Arguments Fulfilled {A} value.
Arguments Rejected {A} reason.

(** Awaiting inside a [try]-less stretch of code: a rejection passes
    through. *)
#[global] Instance settled_bind : MBind settled := fun A B k p =>
  match p with
  | Fulfilled a => k a
  | Rejected e => Rejected e
  end.

Record Response : Type := {
  status : nat;
  statusText : string;
  body : settled string      (* how [response.text()] settles *)
}.

(** [response.ok] *)
Definition ok (r : Response) : bool :=
  (200 <=? status r)%nat && (status r <=? 299)%nat.

(** The network seen from the scraper: how the [n]-th request for a
    URL settles ([n] counts the earlier requests for that URL).  A
    request aborted by the timeout rejects. *)
Definition network : Type := string -> nat -> settled Response.

End Net.

(** ** The scraper: cache, single scrape, batches *)

Module PumpFunScraper.
Import JS Scraper Dom Net.

Record ScrapedTokenData : Type := {
  description : option string;
  error : option string
}.

(** The state of one scraper instance.  [requests] is the log of the
    URLs requested so far, oldest first; the source does not keep it. *)
Record state : Type := {
  cache : gmap string ScrapedTokenData;
  requests : list string
}.

Definition initial : state := {| cache := ∅; requests := [] |}.

(** [value || 'No description available'] *)
Definition orNoDescription (value : option string) : string :=
  match value with
  | Some d => if truthy d then d else noDescription
  | None => noDescription
  end.

(** [value || undefined] *)
Definition orUndefined (value : option string) : option string :=
  match value with
  | Some d => if truthy d then Some d else None
  | None => None
  end.

Definition countRequests (url : string) (log : list string) : nat :=
  length (List.filter (String.eqb url) log).

Definition fetchTokenPage (response : settled Response) : settled string :=
  res ← response;
  if negb (ok res)
  then Rejected (ErrorObject
         ("HTTP " +:+ pretty (status res) +:+ ": " +:+ statusText res))
  else body res.

Section WithEnvironment.

Variable load : string -> option document.
Variable net : network.

(** A call of [scrapeTokenDescription] that has run up to its first
    suspension: it has returned from the cache, or it waits for the
    page it requested. *)
Inductive call : Type :=
| Returned (desc : string)
| Awaiting (tokenAddress : string) (page : settled string).

Definition pageUrl (tokenAddress : string) : string :=
  baseUrl +:+ "/" +:+ tokenAddress.

(** The synchronous part: the cache check and the request.  The
    rate-limit delay taken when [skipDelay] is false only postpones
    the request. *)
Definition start (tokenAddress : string) (skipDelay : bool) (st : state)
    : call * state :=
  match cache st !! tokenAddress with
  | Some cached => (Returned (orNoDescription (description cached)), st)
  | None =>
      let url := pageUrl tokenAddress in
      (Awaiting tokenAddress
         (fetchTokenPage (net url (countRequests url (requests st)))),
       {| cache := cache st; requests := requests st ++ [url] |})
  end.

(** What the call returns and what it caches once the page has
    settled: the end of the [try] block, or the [catch] block. *)
Definition settle (page : settled string) : string * ScrapedTokenData :=
  match page with
  | Fulfilled html =>
      let found := Extractor.extractDescription load html in
      (orNoDescription found,
       {| description := orUndefined found; error := None |})
  | Rejected e =>
      let message :=
        match e with
        | ErrorObject m => m
        | OtherValue => "Unknown error"
        end in
      (noDescription, {| description := None; error := Some message |})
  end.

Definition finish (c : call) (st : state) : string * state :=
  match c with
  | Returned desc => (desc, st)
  | Awaiting tokenAddress page =>
      let '(desc, entry) := settle page in
      (desc,
       {| cache := <[tokenAddress := entry]> (cache st);
          requests := requests st |})
  end.

(** A call awaited on its own. *)
Definition scrapeTokenDescription (tokenAddress : string) (skipDelay : bool)
    (st : state) : string * state :=
  let '(c, st1) := start tokenAddress skipDelay st in
  finish c st1.

Fixpoint mapState {A B : Type} (f : A -> state -> B * state) (l : list A)
    (st : state) : list B * state :=
  match l with
  | [] => ([], st)
  | a :: l' =>
      let '(b, st1) := f a st in
      let '(bs, st2) := mapState f l' st1 in
      (b :: bs, st2)
  end.

(** [results[address] = desc] for the fulfilled entries, in order.  The
    record is a finite map from addresses to descriptions; addresses
    that name a member of [Object.prototype] are outside the model. *)
Fixpoint collect (batchResults : list (settled (string * string)))
    (results : gmap string string) : gmap string string :=
  match batchResults with
  | [] => results
  | Fulfilled (address, desc) :: rest => collect rest (<[address := desc]> results)
  | Rejected _ :: rest => collect rest results
  end.

(** [map] starts every call of the batch; the pages then settle (here
    in the order of the requests) and [Promise.allSettled] hands the
    outcomes over in the order of the batch. *)
Definition processBatch (tokenAddresses : list string) (st : state)
    : gmap string string * state :=
  let '(calls, st1) :=
    mapState (fun address => start address true) tokenAddresses st in
  let '(descs, st2) := mapState finish calls st1 in
  let batchResults :=
    List.map Fulfilled (List.combine tokenAddresses descs) in
  (collect batchResults ∅, st2).

(** [tokenAddresses.slice(i, j)] *)
Definition slice {A : Type} (i j : nat) (l : list A) : list A :=
  List.firstn (j - i) (List.skipn i l).

(** The batch loop, from index [i]; [Object.assign] lets the entries
    of the batch override.  [fuel] bounds the number of rounds. *)
Fixpoint batchLoop (fuel i : nat) (tokenAddresses : list string)
    (results : gmap string string) (st : state) : gmap string string * state :=
  match fuel with
  | O => (results, st)
  | S fuel' =>
      if (i <? length tokenAddresses)%nat then
        let batch := slice i (i + batchSize config) tokenAddresses in
        let '(batchResults, st1) := processBatch batch st in
        batchLoop fuel' (i + batchSize config) tokenAddresses
          (batchResults ∪ results) st1
      else (results, st)
  end.

Definition scrapeMultipleTokens (tokenAddresses : list string) (st : state)
    : gmap string string * state :=
  batchLoop (length tokenAddresses) 0 tokenAddresses ∅ st.

Definition clearCache (st : state) : state :=
  {| cache := ∅; requests := requests st |}.

Definition clearTokenFromCache (tokenAddress : string) (st : state) : state :=
  {| cache := delete tokenAddress (cache st); requests := requests st |}.





End WithEnvironment.

End PumpFunScraper.

(** ** The list service *)

Module Api.
Import JS Scraper Net.

(** A token of the upstream list.  [description = None] is an absent
    (or null) field.  The other fields of a token are neither read nor
    written by the enrichment, logging apart. *)
Record PumpCoin : Type := {
  address : string;
  name : string;
  symbol : string;
  description : option string
}.

(** What [JSON.parse] made of the body: [null], on which reading
    [.rank] throws, or a value with its [rank] ([None] when the field
    is absent or falsy). *)
Inductive parsed : Type :=
| DataNull
| Data (rank : option (list PumpCoin)).

(** Milliseconds. *)
Definition scrapingTimeout : N := 15000.

(** [!token.description || token.description.trim() === ''] *)
Definition needsScraping (token : PumpCoin) : bool :=
  match description token with
  | None => true
  | Some d => negb (truthy d) || String.eqb (trim d) EmptyString
  end.

(** [Promise.race([scrapingPromise, timeoutPromise])], where the
    scraping settles after [elapsed] milliseconds, or never.  A scraping
    that settles at the very millisecond of the timeout is taken to
    lose; the properties below do not rely on that case. *)
Definition race {A : Type} (elapsed : option N) (scraped : A) : settled A :=
  match elapsed with
  | Some t =>
      if (t <? scrapingTimeout)%N then Fulfilled scraped
      else Rejected (ErrorObject "Scraping timeout after 15 seconds")
  | None => Rejected (ErrorObject "Scraping timeout after 15 seconds")
  end.

Definition setDescription (token : PumpCoin) (d : string) : PumpCoin :=
  {| address := address token; name := name token; symbol := symbol token;
     description := Some d |}.

(** The merge loop over all tokens. *)
Fixpoint mergeLoop (scrapedDescriptions : gmap string string)
    (tokens : list PumpCoin) : list PumpCoin :=
  match tokens with
  | [] => []
  | token :: rest =>
      let token' :=
        match scrapedDescriptions !! address token with
        | Some d =>
            if truthy d && negb (String.eqb d noDescription)
            then setDescription token d else token
        | None => token
        end in
      token' :: mergeLoop scrapedDescriptions rest
  end.

Section WithEnvironment.

Variable load : string -> option Dom.document.
Variable net : network.
Variable JSON_parse : string -> option parsed.

(** The tokens after the call; they are updated in place in the
    source.  [st] is the state of the global scraper. *)
Definition enhanceTokensWithDescriptions (tokens : list PumpCoin)
    (elapsed : option N) (st : PumpFunScraper.state) : list PumpCoin :=
  let tokensNeedingScraping := List.filter needsScraping tokens in
  if (length tokensNeedingScraping =? 0)%nat then tokens
  else
    let addresses := List.map address tokensNeedingScraping in
    let scraping := (PumpFunScraper.scrapeMultipleTokens load net addresses st).1 in
    match race elapsed scraping with
    | Fulfilled scrapedDescriptions => mergeLoop scrapedDescriptions tokens
    | Rejected _ => tokens
    end.

(** The body of the [try] block. *)
Definition fetchAndEnhance (response : settled Response) (elapsed : option N)
    (st : PumpFunScraper.state) : settled (list PumpCoin) :=
  res ← response;
  if negb (ok res)
  then Rejected (ErrorObject ("API returned " +:+ pretty (status res) +:+ " error"))
  else
    responseText ← body res;
    match JSON_parse responseText with
     | None => Rejected (ErrorObject "Unexpected token in JSON")
     | Some DataNull =>
         Rejected (ErrorObject "Cannot read properties of null (reading 'rank')")
     | Some (Data rank) =>
         let tokens := default [] rank in
         let tokens' := enhanceTokensWithDescriptions tokens elapsed st in
         Fulfilled (if (0 <? length tokens')%nat then tokens' else [])
     end.

Definition getPumpList (response : settled Response) (elapsed : option N)
    (st : PumpFunScraper.state) : list PumpCoin :=
  match fetchAndEnhance response elapsed st with
  | Fulfilled tokens => tokens
  | Rejected _ => []
  end.

End WithEnvironment.

End Api.

(** ** Notions of the specification *)

Module Spec.
Import JS Scraper Dom Extractor.

(** Two strings match exactly, letter case apart. *)
Fixpoint equalsIgnoreCase (a b : string) : bool :=
  match a, b with
  | EmptyString, EmptyString => true
  | String c a', String d b' =>
      Ascii.eqb (canonicalize c) (canonicalize d) && equalsIgnoreCase a' b'
  | _, _ => false
  end.

(** The words of a text: its maximal runs of characters that are not
    white space.  [inWord] tells that the previous character belongs
    to a word. *)
Fixpoint countWordsFrom (inWord : bool) (s : string) : nat :=
  match s with
  | EmptyString => 0
  | String c s' =>
      if isWhiteSpace c then countWordsFrom false s'
      else if inWord then countWordsFrom true s'
      else S (countWordsFrom true s')
  end.

Definition wordCount (s : string) : nat := countWordsFrom false s.

(** A text is whitespace-normalized when its only white space is
    single spaces between other characters. *)
Fixpoint normalizedFrom (afterSpace : bool) (s : string) : bool :=
  match s with
  | EmptyString => true
  | String c s' =>
      if isWhiteSpace c
      then negb afterSpace && Ascii.eqb c " " && truthy s' && normalizedFrom true s'
      else normalizedFrom false s'
  end.

Definition whitespaceNormalized (s : string) : bool := normalizedFrom true s.

(** The same without the condition on the end of the text. *)
Fixpoint spacedFrom (afterSpace : bool) (s : string) : bool :=
  match s with
  | EmptyString => true
  | String c s' =>
      if isWhiteSpace c
      then negb afterSpace && Ascii.eqb c " " && spacedFrom true s'
      else spacedFrom false s'
  end.

(** The candidates of the three strategies, in the order of the
    specification. *)
Definition metaCandidates (doc : document) : list string :=
  omap (fun sel => attr (select sel doc) "content") metaSelectors.

Definition structuralCandidates (doc : document) : list string :=
  List.flat_map (fun sel => List.map (fun el => trim (text el)) (select sel doc))
    structuralSelectors.

Definition isLeaf (el : node) : bool := (length (children el) =? 0)%nat.

Definition leafCandidates (doc : document) : list string :=
  List.map (fun el => trim (text el)) (List.filter isLeaf (select textElements doc)).

(** The first candidate that passes the filter of its strategy. *)
Definition firstAcceptable (doc : document) : option string :=
  head (List.filter (fun c => isValidDescription c true) (metaCandidates doc)
        ++ List.filter (fun c => isValidDescription c false) (structuralCandidates doc)
        ++ List.filter isValidTextBlock (leafCandidates doc)).

End Spec.

(** ** Notions of the specification: the scraper *)

Module Own.
Import Scraper Net PumpFunScraper.

Section WithEnvironment.

Variable load : string -> option Dom.document.
Variable net : network.

(** What the [n]-th request for the page of [a] comes to. *)
Definition fetched (a : string) (n : nat) : string * ScrapedTokenData :=
  settle load (fetchTokenPage (net (pageUrl a) n)).

(** [d] is a result of [a]'s own, seen from the state [st]: the
    description of its cache entry or, when it has none, what one of
    the requests for its page comes to. *)
Definition ownResult (st : state) (a d : string) : Prop :=
  match cache st !! a with
  | Some entry => d = orNoDescription (description entry)
  | None => exists n, d = (fetched a n).1
  end.


Definition requestsFor (a : string) (st : state) : nat :=
  countRequests (pageUrl a) (requests st).

(** [st] and [st'] look the same to a scrape of [a]. *)
Definition sameFor (a : string) (st st' : state) : Prop :=
  cache st' !! a = cache st !! a /\ requestsFor a st' = requestsFor a st.

(** The same for a call that has been started from [st]. *)
Definition ownCall (st : state) (a : string) (c : call) : Prop :=
  match cache st !! a with
  | Some entry => c = Returned (orNoDescription (description entry))
  | None => exists n, c = Awaiting a (fetchTokenPage (net (pageUrl a) n))
  end.

(** What a started call returns in the end. *)
Definition callResult (c : call) : string :=
  match c with
  | Returned desc => desc
  | Awaiting _ page => (settle load page).1
  end.

(** [st'] comes after [st] without eviction: the entries of [st] are
    kept and their pages are not requested again, and every new
    entry is what a request for its own page came to. *)
Definition extends (st st' : state) : Prop :=
  (forall a entry, cache st !! a = Some entry ->
     cache st' !! a = Some entry /\ requestsFor a st' = requestsFor a st)
  /\ (forall a entry, cache st' !! a = Some entry ->
     cache st !! a = Some entry
     \/ (cache st !! a = None /\ exists n, entry = (fetched a n).2)).

End WithEnvironment.

End Own.

(** ** Notions of the specification: the list service *)

Module Enrichment.
Import JS Scraper Net Api.

(** The ways the upstream list can fail: the request rejects, the
    status is not 2xx, the body cannot be read, or the body is not of
    the expected shape: it is no JSON, it is [null], or it has no
    [rank]. *)
Inductive upstreamFailure (JSON_parse : string -> option parsed)
    : settled Response -> Prop :=
| NetworkError (e : thrown) : upstreamFailure JSON_parse (Rejected e)
| BadStatus (res : Response) :
    ok res = false -> upstreamFailure JSON_parse (Fulfilled res)
| BodyLost (res : Response) (e : thrown) :
    body res = Rejected e -> upstreamFailure JSON_parse (Fulfilled res)
| NotJson (res : Response) (responseText : string) :
    body res = Fulfilled responseText -> JSON_parse responseText = None ->
    upstreamFailure JSON_parse (Fulfilled res)
| NullBody (res : Response) (responseText : string) :
    body res = Fulfilled responseText -> JSON_parse responseText = Some DataNull ->
    upstreamFailure JSON_parse (Fulfilled res)
| NoRank (res : Response) (responseText : string) :
    body res = Fulfilled responseText -> JSON_parse responseText = Some (Data None) ->
    upstreamFailure JSON_parse (Fulfilled res).

(** The upstream answers with the list [tokens]. *)
Definition delivers (JSON_parse : string -> option parsed)
    (response : settled Response) (tokens : list PumpCoin) : Prop :=
  exists res responseText,
    response = Fulfilled res /\ ok res = true
    /\ body res = Fulfilled responseText
    /\ JSON_parse responseText = Some (Data (Some tokens)).

(** The scraping does not settle within the timeout: it never settles,
    or it settles later. *)
Definition timedOut (elapsed : option N) : Prop :=
  match elapsed with
  | None => True
  | Some t => (scrapingTimeout < t)%N
  end.




End Enrichment.

(** ** Sample pages and environments *)

Module Sample.
Import JS Scraper Dom Net Api.

Definition page (headNodes bodyNodes : list node) : document :=
  [Element "html" [] [Element "head" [] headNodes; Element "body" [] bodyNodes]].

Definition metaDescription (content : string) : node :=
  Element "meta" [("name", "description"); ("content", content)] [].

(** A page whose description tag holds one space. *)
Definition blankMetaPage : document := page [metaDescription " "] [].

(** A page with a stale meta tag, a loading banner and an about box. *)
Definition tokenPage : document :=
  page [metaDescription "pump.fun token created 3 hours ago"]
    [Element "div" [("class", "banner description")] [Text "Loading..."];
     Element "main" []
       [Element "p" [] [Text "   The first   dog on
the moon  "];
        Element "span" [] [Text "Market cap 12.5k"]]].

(** A stand-in for the parser on three inputs. *)
Definition load (html : string) : option document :=
  if String.eqb html "<blank>" then Some blankMetaPage
  else if String.eqb html "<token>" then Some tokenPage
  else if String.eqb html "<found>" then Some (page [metaDescription "Found description"] [])
  else Some (page [] []).

Definition respond (html : string) : settled Response :=
  Fulfilled {| status := 200; statusText := "OK"; body := Fulfilled html |}.

(** A network on which [X] has a described page, [T] the token page,
    [Z] answers 404 and every other request is aborted. *)
Definition net : network := fun url _ =>
  if String.eqb url "https://pump.fun/X" then respond "<found>"
  else if String.eqb url "https://pump.fun/T" then respond "<token>"
  else if String.eqb url "https://pump.fun/Z"
  then Fulfilled {| status := 404; statusText := "Not Found"; body := Fulfilled "" |}
  else Rejected (ErrorObject "This operation was aborted").

Definition coin (a : string) (d : option string) : PumpCoin :=
  {| address := a; name := a; symbol := a; description := d |}.

(** Scenario A of the specification. *)
Definition scenarioA : list PumpCoin :=
  [coin "X" (Some ""); coin "Y" (Some "Existing text")].


Definition JSON_parse (responseText : string) : option parsed :=
  if String.eqb responseText "{rank: A}" then Some (Data (Some scenarioA))
  else if String.eqb responseText "null" then Some DataNull
  else if String.eqb responseText "{}" then Some (Data None)
  else None.

End Sample.


(** ** Shapes of texts, for the properties of the filter *)

Module Shapes.
Import JS.

(** Every character of the text satisfies [p]. *)
Fixpoint allOf (p : ascii -> bool) (s : string) : bool :=
  match s with
  | EmptyString => true
  | String c s' => p c && allOf p s'
  end.

(** The character just before the end of [s], or [prev] when [s] is
    empty. *)
Fixpoint lastChar (prev : option ascii) (s : string) : option ascii :=
  match s with
  | EmptyString => prev
  | String c s' => lastChar (Some c) s'
  end.

Definition timeUnits : list string :=
  ["second"; "minute"; "hour"; "day"; "week"; "month"; "year"].

End Shapes.

(** ** Address formatting *)

Module Format.

(** [s.substring(start, end)] for indices that are not negative: both
    are clamped to the length and swapped when out of order. *)
Definition substring (s : string) (i j : nat) : string :=
  let len := String.length s in
  let lo := Nat.min (Nat.min i j) len in
  let hi := Nat.min (Nat.max i j) len in
  String.substring lo (hi - lo) s.

(** [s.substr(start)]: a negative [start] counts from the end. *)
Definition substr (s : string) (start : Z) : string :=
  let len := String.length s in
  let from :=
    if (start <? 0)%Z then Z.to_nat (Z.max (Z.of_nat len + start) 0)
    else Nat.min (Z.to_nat start) len in
  String.substring from (len - from) s.

Definition formatAddress (addr : string) : string :=
  substring addr 0 5 +:+ "..." +:+ substr addr (-4).

End Format.

(** ** The transaction manager (lib/transactions) *)

Module TransactionManager.

Record TransactionStatus : Type := {
  pending : bool;
  confirmed : bool;
  failed : bool;
  signature : option string;
  error : option string
}.

(** [Partial<TransactionStatus>]: [None] is an absent key.  For the two
    optional fields a key that is present may hold [undefined]. *)
Record PartialStatus : Type := {
  setPending : option bool;
  setConfirmed : option bool;
  setFailed : option bool;
  setSignature : option (option string);
  setError : option (option string)
}.

(** [{ ...existing, ...status }] *)
Definition spread (existing : TransactionStatus) (status : PartialStatus)
    : TransactionStatus :=
  {| pending := default (pending existing) (setPending status);
     confirmed := default (confirmed existing) (setConfirmed status);
     failed := default (failed existing) (setFailed status);
     signature := default (signature existing) (setSignature status);
     error := default (error existing) (setError status) |}.

(** The [pendingTransactions] map of the singleton. *)
Definition manager : Type := gmap string TransactionStatus.

Definition addPendingTransaction (id : string) (sig : option string)
    (m : gmap string TransactionStatus) : gmap string TransactionStatus :=
  <[id := {| pending := true; confirmed := false; failed := false;
             signature := sig; error := None |}]> m.

Definition updateTransactionStatus (id : string) (status : PartialStatus)
    (m : gmap string TransactionStatus) : gmap string TransactionStatus :=
  match m !! id with
  | Some existing => <[id := spread existing status]> m
  | None => m
  end.

(** [None] is [null]. *)
Definition getTransactionStatus (id : string) (m : gmap string TransactionStatus)
    : option TransactionStatus :=
  m !! id.

Definition removeTransaction (id : string) (m : gmap string TransactionStatus)
    : gmap string TransactionStatus :=
  delete id m.

(** A copy of the whole map. *)
Definition getPendingTransactions (m : gmap string TransactionStatus)
    : gmap string TransactionStatus :=
  m.

End TransactionManager.

Module Transactions.
Import JS Net TransactionManager.

Record TransactionResult : Type := {
  success : bool;
  signature : option string;
  error : option string
}.

Definition errorMessage (e : thrown) : string :=
  match e with
  | ErrorObject m => m
  | OtherValue => "Unknown error"
  end.

(** [executeTransaction] up to its [await]: the transaction is
    registered as pending, without a signature. *)
Definition executeStart (transactionId : string) (m : gmap string TransactionStatus)
    : gmap string TransactionStatus :=
  addPendingTransaction transactionId None m.

Definition failWith (message : string) (transactionId : string)
    (m : gmap string TransactionStatus)
    : TransactionResult * gmap string TransactionStatus :=
  ({| success := false; signature := None; error := Some message |},
   updateTransactionStatus transactionId
     {| setPending := Some false; setConfirmed := None; setFailed := Some true;
        setSignature := None; setError := Some (Some message) |} m).

(** [executeTransaction] from the moment [transactionFn()] has settled
    with [outcome] ([Fulfilled None] is [null]); [m] is the manager at
    that moment. *)
Definition executeFinish (outcome : settled (option string)) (transactionId : string)
    (m : gmap string TransactionStatus)
    : TransactionResult * gmap string TransactionStatus :=
  match outcome with
  | Fulfilled (Some sig) =>
      if truthy sig then
        ({| success := true; signature := Some sig; error := None |},
         updateTransactionStatus transactionId
           {| setPending := Some false; setConfirmed := Some true; setFailed := None;
              setSignature := Some (Some sig); setError := None |} m)
      else failWith "Transaction failed" transactionId m
  | Fulfilled None => failWith "Transaction failed" transactionId m
  | Rejected e => failWith (errorMessage e) transactionId m
  end.

(** The call when nothing else touches the manager meanwhile. *)
Definition executeTransaction (outcome : settled (option string))
    (transactionId : string) (m : gmap string TransactionStatus)
    : TransactionResult * gmap string TransactionStatus :=
  executeFinish outcome transactionId (executeStart transactionId m).

(** What a run of [retryTransaction] comes to: how it settles, how many
    times [transactionFn] was called, and the delays it waited, in
    milliseconds, oldest first. *)
Record retried : Type := {
  settles : settled string;
  calls : nat;
  waits : list nat
}.

(** The code after the loop. *)
Definition giveUp (lastError : option string) (called : nat) (waited : list nat)
    : retried :=
  {| settles :=
       Rejected (ErrorObject
         (default "Transaction failed after all retries" lastError));
     calls := called;
     waits := waited |}.

(** The loop from [attempt] on, with [remaining] rounds to go
    ([attempt <= maxRetries] holds exactly when [remaining] is not 0).
    [transactionFn k] is how the [k]-th call settles. *)
Fixpoint retryLoop (transactionFn : nat -> settled (option string))
    (maxRetries delay : nat) (remaining attempt : nat)
    (lastError : option string) (waited : list nat) : retried :=
  match remaining with
  | O => giveUp lastError (attempt - 1) waited
  | S remaining' =>
      match transactionFn attempt with
      | Fulfilled (Some result) =>
          if truthy result
          then {| settles := Fulfilled result; calls := attempt; waits := waited |}
          else retryLoop transactionFn maxRetries delay remaining' (S attempt)
                 lastError waited
      | Fulfilled None =>
          retryLoop transactionFn maxRetries delay remaining' (S attempt)
            lastError waited
      | Rejected e =>
          let waited' :=
            if (attempt <? maxRetries)%nat then waited ++ [(delay * attempt)%nat]
            else waited in
          retryLoop transactionFn maxRetries delay remaining' (S attempt)
            (Some (errorMessage e)) waited'
      end
  end.

Definition retryTransaction (transactionFn : nat -> settled (option string))
    (maxRetries delay : nat) : retried :=
  retryLoop transactionFn maxRetries delay maxRetries 1 None [].

End Transactions.

(** ** The dashboard's choice of the list to display *)

Module Dashboard.
Import Api.

(** The demonstration token; its time stamps, which are the time of the
    call, are among the fields the model of a token leaves out. *)
Definition getFallbackData : list PumpCoin := [
  {| address := "EDuHvMKwAddbhxN8CsFzKA38uBL9iEz8ToHB97ZDpump";
     name := "DEMO TOKEN";
     symbol := "DEMO";
     description := Some "This is a demonstration token showing how descriptions appear when the external API is unavailable. Real token descriptions are scraped from pump.fun pages." |}
].

(** [data && data.length > 0]; [None] is [undefined]. *)
Definition isGood (data : option (list PumpCoin)) : bool :=
  match data with
  | Some d => (0 <? length d)%nat
  | None => false
  end.

(** The [useMemo] for [displayData], with [lastGood] the content of
    [lastGoodDataRef]. *)
Definition displayData (data : option (list PumpCoin)) (lastGood : list PumpCoin)
    : list PumpCoin :=
  match data with
  | Some d =>
      if (0 <? length d)%nat then d
      else if (0 <? length lastGood)%nat then lastGood else getFallbackData
  | None => if (0 <? length lastGood)%nat then lastGood else getFallbackData
  end.

(** The [useEffect] that follows the render. *)
Definition remember (data : option (list PumpCoin)) (lastGood : list PumpCoin)
    : list PumpCoin :=
  match data with
  | Some d => if (0 <? length d)%nat then d else lastGood
  | None => lastGood
  end.

(** The renders for the successive values of [data]: what each one
    displays, and the content of the ref in the end. *)
Fixpoint renders (datas : list (option (list PumpCoin))) (lastGood : list PumpCoin)
    : list (list PumpCoin) * list PumpCoin :=
  match datas with
  | [] => ([], lastGood)
  | data :: rest =>
      let shown := displayData data lastGood in
      let '(more, final) := renders rest (remember data lastGood) in
      (shown :: more, final)
  end.

End Dashboard.

(** ** Cached and uncached tokens *)

Module Cached.
Import PumpFunScraper.

(** The token has no entry in the cache. *)
Definition uncached (st : state) (a : string) : bool :=
  match cache st !! a with
  | None => true
  | Some _ => false
  end.

(** The call has returned from the cache. *)
Definition returned (c : call) : bool :=
  match c with
  | Returned _ => true
  | Awaiting _ _ => false
  end.

End Cached.

(** ** Attempts of a retried transaction *)

Module Attempts.
Import JS Net.

(** The attempt gives a signature: it resolves to a string that is not
    empty. *)
Definition signatureOf (attempt : settled (option string)) : option string :=
  match attempt with
  | Fulfilled (Some result) => if truthy result then Some result else None
  | _ => None
  end.

(** The attempt throws. *)
Definition throws (attempt : settled (option string)) : bool :=
  match attempt with
  | Rejected _ => true
  | Fulfilled _ => false
  end.

End Attempts.

(** * Properties *)

(** ** Strings *)

Section StringFacts.
Import JS.

Lemma lowerChar_canonicalize (c : ascii) :
  lowerChar (canonicalize c) = lowerChar c.
Proof.
  destruct c as [[] [] [] [] [] [] [] []]; vm_compute; reflexivity.
Qed.

Lemma canonicalize_eq_lower (c d : ascii) :
  canonicalize c = canonicalize d -> lowerChar c = lowerChar d.
Proof.
  intros H. rewrite <- (lowerChar_canonicalize c), H.
  apply lowerChar_canonicalize.
Qed.

Lemma canonicalize_lowerChar (c : ascii) :
  canonicalize (lowerChar c) = canonicalize c.
Proof.
  destruct c as [[] [] [] [] [] [] [] []]; vm_compute; reflexivity.
Qed.

Lemma lower_equalsIgnoreCase (a b : string) :
  toLowerCase a = toLowerCase b -> Spec.equalsIgnoreCase a b = true.
Proof.
  revert b. induction a as [|c a IH]; intros [|d b]; simpl; try easy.
  intros [= Hc Hab]. rewrite (IH b Hab), andb_true_r.
  apply Ascii.eqb_eq.
  by rewrite <- (canonicalize_lowerChar c), Hc, canonicalize_lowerChar.
Qed.

Lemma equalsIgnoreCase_lower (a b : string) :
  Spec.equalsIgnoreCase a b = true -> toLowerCase a = toLowerCase b.
Proof.
  revert b. induction a as [|c a IH]; intros [|d b]; simpl; try easy.
  intros [Hc Hab]%andb_prop. apply Ascii.eqb_eq in Hc.
  f_equal; [by apply canonicalize_eq_lower | by apply IH].
Qed.

Lemma length_toLowerCase (s : string) :
  String.length (toLowerCase s) = String.length s.
Proof. induction s; simpl; congruence. Qed.

Lemma prefix_toLowerCase (p s : string) :
  String.prefix p s = true ->
  String.prefix (toLowerCase p) (toLowerCase s) = true.
Proof.
  revert s. induction p as [|c p IH]; intros s.
  { intros _. simpl. by destruct (toLowerCase s). }
  destruct s as [|d s]; simpl; [done|].
  destruct (ascii_dec c d) as [->|]; [|done].
  intros H. destruct (ascii_dec _ _); [by apply IH | done].
Qed.

Lemma includes_toLowerCase (s p : string) :
  includes s p = true -> includes (toLowerCase s) (toLowerCase p) = true.
Proof.
  induction s as [|c s IH]; simpl.
  - rewrite !orb_false_r. apply (prefix_toLowerCase p EmptyString).
  - intros [H|H]%orb_prop; apply orb_true_iff.
    + left. apply (prefix_toLowerCase p (String c s) H).
    + right. by apply IH.
Qed.

Lemma truthy_true (s : string) : truthy s = true <-> s <> EmptyString.
Proof.
  unfold truthy. rewrite negb_true_iff. split.
  - intros H ->. by rewrite String.eqb_refl in H.
  - intros H. by apply String.eqb_neq.
Qed.

End StringFacts.

(** ** The description filter *)

Section Filter.
Import JS Scraper.

Lemma isValidDescription_true (t : string) (isMetaTag : bool) :
  isValidDescription t isMetaTag = true <->
  truthy t = true
  /\ (String.length t <= maxDescriptionLength config)%nat
  /\ matchesTimePattern t = false
  /\ existsb (String.eqb (toLowerCase t)) commonExclusions = false
  /\ (isMetaTag = true
      \/ existsb (includes (toLowerCase t)) uiExclusions = false).
Proof.
  unfold isValidDescription.
  replace (String.length t <? minDescriptionLength config)%nat with false
    by (symmetry; apply Nat.ltb_ge; simpl; lia).
  rewrite orb_false_r.
  destruct (truthy t); simpl negb; cbv iota; [|intuition discriminate].
  rewrite orb_false_l.
  destruct (Nat.ltb_spec (maxDescriptionLength config) (String.length t)) as [Hlen|Hlen].
  { split; [done|]. intros (_ & ? & _). lia. }
  destruct (matchesTimePattern t); [intuition discriminate|].
  match goal with |- context [if ?b then false else _] => destruct b end;
    [intuition discriminate|].
  destruct isMetaTag; simpl negb; cbv iota.
  { rewrite andb_false_l. intuition discriminate. }
  rewrite andb_true_l.
  match goal with |- context [if ?b then false else true] => destruct b end;
    intuition discriminate.
Qed.

Lemma isValidDescription_empty (isMetaTag : bool) :
  isValidDescription EmptyString isMetaTag = false.
Proof. reflexivity. Qed.

Lemma isValidDescription_nonempty (t : string) (isMetaTag : bool) :
  isValidDescription t isMetaTag = true -> t <> EmptyString.
Proof. intros (H & _)%isValidDescription_true. by apply truthy_true. Qed.

Lemma existsb_elem {A : Type} (f : A -> bool) (x : A) (l : list A) :
  x ∈ l -> f x = true -> existsb f l = true.
Proof.
  intros Hin Hf. apply existsb_exists. exists x. split; [|done].
  by apply list_elem_of_In.
Qed.

Lemma commonExclusions_lower (e : string) :
  e ∈ commonExclusions -> toLowerCase e = e.
Proof.
  unfold commonExclusions. rewrite !elem_of_cons, elem_of_nil.
  intros [->|[->|[->|[]]]]; reflexivity.
Qed.

Lemma uiExclusions_lower (e : string) :
  e ∈ uiExclusions -> toLowerCase e = e.
Proof.
  unfold uiExclusions. intros H.
  repeat (apply elem_of_cons in H as [->|H]; [reflexivity|]).
  by apply elem_of_nil in H.
Qed.

(** C7.  A text that matches one of the relative-time patterns is
    rejected by [isValidDescription] with meta-tag leniency enabled and
    with it disabled; the texts "5 minutes ago", "2 hours ago",
    "just now" and "yesterday" match such a pattern. *)
Theorem relative_time_rejected :
  (forall (t : string) (isMetaTag : bool),
      matchesTimePattern t = true -> isValidDescription t isMetaTag = false)
  /\ Forall (fun t => matchesTimePattern t = true)
       ["5 minutes ago"; "2 hours ago"; "just now"; "yesterday"].
Proof.
  split.
  - intros t isMetaTag H.
    destruct (isValidDescription t isMetaTag) eqn:E; [|done].
    apply isValidDescription_true in E as (_ & _ & E & _). congruence.
  - repeat constructor.
Qed.

Lemma relative_time_rejected_witness :
  matchesTimePattern "5 minutes ago" = true
  /\ isValidDescription "5 minutes ago" true = false
  /\ isValidDescription "5 minutes ago" false = false.
Proof.
  split; [reflexivity|].
  split; apply (proj1 relative_time_rejected); reflexivity.
Defined.

(** C9.  In both leniency modes [isValidDescription] rejects a text
    that matches a common exclusion exactly, letter case apart, and a
    text longer than 2500 characters.  With leniency disabled it also
    rejects a text that contains a UI phrase.  With leniency enabled
    the UI phrases play no part: a text is accepted exactly when it is
    not empty, not too long, matches no time pattern and is no common
    exclusion. *)
Theorem exclusions_and_length (t : string) :
  (forall (isMetaTag : bool) (e : string),
      e ∈ commonExclusions -> Spec.equalsIgnoreCase t e = true ->
      isValidDescription t isMetaTag = false)
  /\ (forall isMetaTag : bool,
      (2500 < String.length t)%nat -> isValidDescription t isMetaTag = false)
  /\ (forall phrase : string,
      phrase ∈ uiExclusions -> includes t phrase = true ->
      isValidDescription t false = false)
  /\ (isValidDescription t true = true <->
      t <> EmptyString
      /\ (String.length t <= 2500)%nat
      /\ matchesTimePattern t = false
      /\ forall e, e ∈ commonExclusions -> Spec.equalsIgnoreCase t e = false).
Proof.
  split; [|split; [|split]].
  - intros isMetaTag e He Heq.
    destruct (isValidDescription t isMetaTag) eqn:E; [|done].
    apply isValidDescription_true in E as (_ & _ & _ & E & _).
    apply equalsIgnoreCase_lower in Heq.
    rewrite (commonExclusions_lower e He) in Heq.
    rewrite (existsb_elem _ e _ He) in E; [done|].
    by apply String.eqb_eq.
  - intros isMetaTag Hlen.
    destruct (isValidDescription t isMetaTag) eqn:E; [|done].
    apply isValidDescription_true in E as (_ & E & _).
    change (maxDescriptionLength config) with 2500%nat in E. lia.
  - intros phrase Hp Hinc.
    destruct (isValidDescription t false) eqn:E; [|done].
    apply isValidDescription_true in E as (_ & _ & _ & _ & [E|E]); [done|].
    apply includes_toLowerCase in Hinc.
    rewrite (uiExclusions_lower phrase Hp) in Hinc.
    by rewrite (existsb_elem _ phrase _ Hp Hinc) in E.
  - rewrite isValidDescription_true, truthy_true.
    change (maxDescriptionLength config) with 2500%nat.
    split.
    + intros (Hne & Hlen & Htime & Hex & _). repeat split; try done.
      intros e He. destruct (Spec.equalsIgnoreCase t e) eqn:Heq; [|done].
      apply equalsIgnoreCase_lower in Heq.
      rewrite (commonExclusions_lower e He) in Heq.
      rewrite (existsb_elem _ e _ He) in Hex; [done|].
      by apply String.eqb_eq.
    + intros (Hne & Hlen & Htime & Hex). repeat split; try done; [|by left].
      apply not_true_is_false. intros (e & He & Heq)%existsb_exists.
      apply list_elem_of_In in He. apply String.eqb_eq in Heq.
      specialize (Hex e He).
      assert (Spec.equalsIgnoreCase t e = true) as Ht; [|congruence].
      apply lower_equalsIgnoreCase.
      by rewrite (commonExclusions_lower e He).
Qed.

Lemma isValidTextBlock_cases (t : string) :
  isValidTextBlock t = true ->
  isValidDescription t false = true /\ (2 < length (split " " t))%nat.
Proof.
  unfold isValidTextBlock.
  destruct (isValidDescription t false); simpl; [|done].
  rewrite !andb_true_iff, Nat.ltb_lt. tauto.
Qed.

(** What the word check of [isValidTextBlock] establishes: a text
    that splits at single spaces into fewer than three pieces is
    rejected. *)
Lemma fewer_than_three_pieces_rejected (t : string) :
  (length (split " " t) <= 2)%nat -> isValidTextBlock t = false.
Proof.
  intros H. destruct (isValidTextBlock t) eqn:E; [|done].
  apply isValidTextBlock_cases in E. lia.
Qed.

(** C8.  The text "hello  world", two words with two spaces between
    them, is shorter than three words, is accepted by
    [isValidDescription], and is accepted by [isValidTextBlock]:
    [split] counts the empty piece between the spaces as a word. *)
Theorem two_words_pass_text_block :
  Spec.wordCount "hello  world" = 2%nat
  /\ split " " "hello  world" = ["hello"; ""; "world"]
  /\ isValidDescription "hello  world" false = true
  /\ isValidTextBlock "hello  world" = true.
Proof. repeat split; reflexivity. Qed.

End Filter.

Lemma exclusions_and_length_witness :
  Scraper.isValidDescription "Default Description" true = false
  /\ Scraper.isValidDescription "Default Description" false = false
  /\ Scraper.isValidDescription "Please connect wallet to trade" false = false
  /\ Scraper.isValidDescription "Please connect wallet to trade" true = true.
Proof.
  split; [|split; [|split]].
  - apply (proj1 (exclusions_and_length "Default Description") true
             "default description"); [by left | reflexivity].
  - apply (proj1 (exclusions_and_length "Default Description") false
             "default description"); [by left | reflexivity].
  - apply (proj1 (proj2 (proj2 (exclusions_and_length "Please connect wallet to trade")))
             "connect wallet"); [by left | reflexivity].
  - apply (proj2 (proj2 (proj2 (exclusions_and_length "Please connect wallet to trade")))).
    split; [discriminate|]. split; [simpl; lia|]. split; [reflexivity|].
    intros e He. unfold Scraper.commonExclusions in He.
    repeat (apply elem_of_cons in He as [->|He]; [reflexivity|]).
    by apply elem_of_nil in He.
Defined.

(** ** The extractor *)

Section Extraction.
Import JS Scraper Dom Extractor.

Lemma head_append {A : Type} (l1 l2 : list A) :
  head (l1 ++ l2) = match head l1 with Some x => Some x | None => head l2 end.
Proof. by destruct l1. Qed.

Lemma fmap_or_else {A B : Type} (f : A -> B) (o1 o2 : option A) :
  match f <$> o1 with Some x => Some x | None => f <$> o2 end =
  f <$> match o1 with Some x => Some x | None => o2 end.
Proof. by destruct o1. Qed.

Lemma metaLoop_first (doc : document) (selectors : list selector) :
  metaLoop doc selectors =
  normalize <$>
    head (List.filter (fun c => isValidDescription c true)
            (omap (fun sel => attr (select sel doc) "content") selectors)).
Proof.
  induction selectors as [|sel rest IH]; simpl; [done|].
  destruct (attr (select sel doc) "content") as [content|]; simpl; [|done].
  destruct (isValidDescription content true) eqn:E.
  - apply isValidDescription_nonempty, truthy_true in E as ->. done.
  - by rewrite andb_false_r.
Qed.

Lemma elementLoop_first (elements : list node) :
  elementLoop elements =
  normalize <$>
    head (List.filter (fun c => isValidDescription c false)
            (List.map (fun el => trim (text el)) elements)).
Proof.
  induction elements as [|el rest IH]; simpl; [done|].
  by destruct (isValidDescription (trim (text el)) false).
Qed.

Lemma structuralLoop_first (doc : document) (selectors : list selector) :
  structuralLoop doc selectors =
  normalize <$>
    head (List.filter (fun c => isValidDescription c false)
            (List.flat_map
               (fun sel => List.map (fun el => trim (text el)) (select sel doc))
               selectors)).
Proof.
  induction selectors as [|sel rest IH]; simpl; [done|].
  rewrite List.filter_app, head_append, elementLoop_first, IH.
  apply fmap_or_else.
Qed.

Lemma textBlockLoop_first (elements : list node) :
  textBlockLoop elements =
  normalize <$>
    head (List.filter isValidTextBlock
            (List.map (fun el => trim (text el)) (List.filter Spec.isLeaf elements))).
Proof.
  induction elements as [|el rest IH]; simpl; [done|].
  unfold Spec.isLeaf at 1.
  destruct (length (children el) =? 0)%nat; simpl; [|done].
  by destruct (isValidTextBlock (trim (text el))).
Qed.

(** C1.  For every input, [extractDescription] returns the first
    candidate that passes the filter of its strategy, whitespace
    normalized, the candidates being taken in this order: the content
    of the three meta tags (filter with leniency), the trimmed texts
    matched by the four structural selectors (filter without
    leniency), the trimmed texts of the leaf [p], [div] and [span]
    elements ([isValidTextBlock]).  It returns null when there is no
    such candidate, and when the parser throws. *)
Theorem extraction_priority (load : string -> option document) (html : string) :
  extractDescription load html =
  match load html with
  | Some doc => normalize <$> Spec.firstAcceptable doc
  | None => None
  end.
Proof.
  unfold extractDescription. destruct (load html) as [doc|]; [|done].
  unfold extractFrom, findTextBlocks, Spec.firstAcceptable.
  rewrite !head_append.
  rewrite metaLoop_first, structuralLoop_first, textBlockLoop_first.
  rewrite <- !fmap_or_else.
  reflexivity.
Qed.

(** *** The shape of the results *)

Lemma collapseFrom_spaced (b : bool) (s : string) :
  Spec.spacedFrom b (collapseFrom b s) = true.
Proof.
  revert b. induction s as [|c s IH]; intros b; simpl; [done|].
  destruct (isWhiteSpace c) eqn:E.
  - destruct b; simpl; [apply IH|]. by rewrite IH.
  - simpl. rewrite E. apply IH.
Qed.

Lemma trimStart_spaced (b : bool) (s : string) :
  Spec.spacedFrom b s = true -> Spec.spacedFrom true (trimStart s) = true.
Proof.
  revert b. induction s as [|c s IH]; intros b; simpl; [done|].
  destruct (isWhiteSpace c) eqn:E; simpl.
  - intros [_ H]%andb_prop. by apply (IH true).
  - by rewrite E.
Qed.

Lemma trimEnd_normalized (b : bool) (s : string) :
  Spec.spacedFrom b s = true -> Spec.normalizedFrom b (trimEnd s) = true.
Proof.
  revert b. induction s as [|c s IH]; intros b; simpl; [done|].
  destruct (isWhiteSpace c) eqn:E.
  - intros [H1 H2]%andb_prop. specialize (IH true H2).
    destruct (trimEnd s) as [|d t]; simpl; [done|].
    rewrite E. simpl in IH. by rewrite H1, IH.
  - intros H. specialize (IH false H).
    destruct (trimEnd s) as [|d t]; simpl; by rewrite E.
Qed.

Lemma normalize_normalized (s : string) :
  Spec.whitespaceNormalized (normalize s) = true.
Proof.
  unfold Spec.whitespaceNormalized, normalize, trim, collapseWhiteSpace.
  apply trimEnd_normalized. eapply trimStart_spaced. apply collapseFrom_spaced.
Qed.

Lemma trimEnd_head (c : ascii) (s : string) :
  isWhiteSpace c = false -> exists r, trimEnd (String c s) = String c r.
Proof. intros E. simpl. destruct (trimEnd s); rewrite ?E; by eexists. Qed.

Lemma trim_head (s : string) :
  match trim s with
  | String c _ => isWhiteSpace c = false
  | EmptyString => True
  end.
Proof.
  unfold trim. induction s as [|c s IH]; [done|].
  cbn [trimStart]. destruct (isWhiteSpace c) eqn:E; [exact IH|].
  by destruct (trimEnd_head c s E) as [r ->].
Qed.

Lemma normalize_head (c : ascii) (s : string) :
  isWhiteSpace c = false -> exists r, normalize (String c s) = String c r.
Proof.
  intros E. unfold normalize, trim, collapseWhiteSpace.
  cbn [collapseFrom]. rewrite E. cbn [trimStart]. rewrite E.
  by apply trimEnd_head.
Qed.

Lemma normalize_trim_nonempty (x : string) :
  trim x <> EmptyString -> normalize (trim x) <> EmptyString.
Proof.
  intros Hne. pose proof (trim_head x) as H.
  destruct (trim x) as [|c r]; [done|].
  by destruct (normalize_head c r H) as [r' ->].
Qed.

Lemma metaLoop_some (doc : document) (selectors : list selector) (r : string) :
  metaLoop doc selectors = Some r -> exists content, r = normalize content.
Proof.
  induction selectors as [|sel rest IH]; simpl; [done|].
  destruct (attr _ _) as [content|]; [|done].
  destruct (_ && _); [|done]. intros [= <-]. by eexists.
Qed.

Lemma elementLoop_some (elements : list node) (r : string) :
  elementLoop elements = Some r ->
  exists x, r = normalize (trim x) /\ isValidDescription (trim x) false = true.
Proof.
  induction elements as [|el rest IH]; simpl; [done|].
  destruct (isValidDescription _ false) eqn:E; [|done].
  intros [= <-]. by eexists.
Qed.

Lemma structuralLoop_some (doc : document) (selectors : list selector) (r : string) :
  structuralLoop doc selectors = Some r ->
  exists x, r = normalize (trim x) /\ isValidDescription (trim x) false = true.
Proof.
  induction selectors as [|sel rest IH]; simpl; [done|].
  destruct (elementLoop _) as [found|] eqn:E; [|done].
  intros [= <-]. by eapply elementLoop_some.
Qed.

Lemma textBlockLoop_some (elements : list node) (r : string) :
  textBlockLoop elements = Some r ->
  exists x, r = normalize (trim x) /\ isValidDescription (trim x) false = true.
Proof.
  induction elements as [|el rest IH]; simpl; [done|].
  destruct (_ =? _)%nat; simpl; [|done].
  destruct (isValidTextBlock _) eqn:E; [|done].
  intros [= <-]. apply isValidTextBlock_cases in E as [E _]. by eexists.
Qed.

(** Every result of the extractor is whitespace-normalized. *)
Lemma extractFrom_normalized (doc : document) (r : string) :
  extractFrom doc = Some r -> Spec.whitespaceNormalized r = true.
Proof.
  unfold extractFrom, findTextBlocks.
  destruct (metaLoop _ _) as [found|] eqn:E1.
  { intros [= <-]. apply metaLoop_some in E1 as [content ->].
    apply normalize_normalized. }
  destruct (structuralLoop _ _) as [found|] eqn:E2.
  { intros [= <-]. apply structuralLoop_some in E2 as (x & -> & _).
    apply normalize_normalized. }
  intros (x & -> & _)%textBlockLoop_some. apply normalize_normalized.
Qed.

(** The results of the structural selectors and of the text blocks,
    which are trimmed before they are validated, are not empty. *)
Lemma extractFrom_nonempty_without_meta (doc : document) (r : string) :
  metaLoop doc metaSelectors = None ->
  extractFrom doc = Some r -> r <> EmptyString.
Proof.
  unfold extractFrom, findTextBlocks. intros ->.
  assert (forall x, isValidDescription (trim x) false = true ->
            normalize (trim x) <> EmptyString) as Hne.
  { intros x Hx. by eapply normalize_trim_nonempty, isValidDescription_nonempty. }
  destruct (structuralLoop _ _) as [found|] eqn:E2.
  { intros [= <-]. apply structuralLoop_some in E2 as (x & -> & Hx). by apply Hne. }
  intros (x & -> & Hx)%textBlockLoop_some. by apply Hne.
Qed.

(** C10.  On a page whose description meta tag holds one space the
    extractor returns the empty string, not null: the content is
    validated before it is trimmed.  The empty string itself is
    rejected by the filter in both modes. *)
Theorem blank_meta_yields_empty :
  isValidDescription "" true = false
  /\ isValidDescription "" false = false
  /\ Spec.metaCandidates Sample.blankMetaPage = [" "]
  /\ extractFrom Sample.blankMetaPage = Some ""
  /\ extractDescription Sample.load "<blank>" = Some "".
Proof. repeat split; reflexivity. Qed.

End Extraction.

(** ** The scraper *)

Section ScraperFacts.
Import JS Scraper Net PumpFunScraper Own.

Variable load : string -> option Dom.document.
Variable net : network.

Lemma append_inj_r (p a b : string) : p +:+ a = p +:+ b -> a = b.
Proof. induction p as [|c p IH]; simpl; [done|]. intros [= H]. by apply IH. Qed.

Lemma pageUrl_inj (a b : string) : pageUrl a = pageUrl b -> a = b.
Proof. unfold pageUrl. intros H. by do 2 apply append_inj_r in H. Qed.

Lemma countRequests_app (url : string) (l1 l2 : list string) :
  countRequests url (l1 ++ l2) = (countRequests url l1 + countRequests url l2)%nat.
Proof. unfold countRequests. by rewrite List.filter_app, length_app. Qed.

Lemma countRequests_same (url : string) : countRequests url [url] = 1%nat.
Proof. unfold countRequests. cbn [List.filter]. by rewrite String.eqb_refl. Qed.

Lemma countRequests_other (a b : string) :
  a <> b -> countRequests (pageUrl a) [pageUrl b] = 0%nat.
Proof.
  intros Hne. unfold countRequests. cbn [List.filter].
  destruct (String.eqb_spec (pageUrl a) (pageUrl b)) as [H|]; [|done].
  by apply pageUrl_inj in H.
Qed.

Lemma orNoDescription_orUndefined (found : option string) :
  orNoDescription (orUndefined found) = orNoDescription found.
Proof.
  destruct found as [d|]; simpl; [|done].
  destruct (truthy d) eqn:E; simpl; [|done]. by rewrite E.
Qed.

Lemma orNoDescription_truthy (found : option string) :
  truthy (orNoDescription found) = true.
Proof.
  destruct found as [d|]; simpl; [|done].
  by destruct (truthy d) eqn:E.
Qed.

Lemma settle_consistent (page : settled string) :
  orNoDescription (description (settle load page).2) = (settle load page).1.
Proof.
  destruct page as [html|e]; simpl; [|done]. apply orNoDescription_orUndefined.
Qed.

Lemma settle_rejected (e : thrown) : (settle load (Rejected e)).1 = noDescription.
Proof. done. Qed.

Lemma settle_truthy (page : settled string) : truthy (settle load page).1 = true.
Proof. destruct page; simpl; [apply orNoDescription_truthy | done]. Qed.

(** *** One call *)

Lemma start_cached (a : string) (skip : bool) (st : state) (entry : ScrapedTokenData) :
  cache st !! a = Some entry ->
  start net a skip st = (Returned (orNoDescription (description entry)), st).
Proof. unfold start. by intros ->. Qed.

Lemma start_fresh (a : string) (skip : bool) (st : state) :
  cache st !! a = None ->
  start net a skip st =
  (Awaiting a (fetchTokenPage (net (pageUrl a) (requestsFor a st))),
   {| cache := cache st; requests := requests st ++ [pageUrl a] |}).
Proof. unfold start. by intros ->. Qed.

Lemma start_spec (a : string) (skip : bool) (st : state) :
  let '(c, st1) := start net a skip st in
  cache st1 = cache st /\ ownCall net st a c
  /\ (forall b entry, cache st !! b = Some entry ->
        requestsFor b st1 = requestsFor b st).
Proof.
  unfold ownCall. destruct (cache st !! a) as [entry|] eqn:E.
  - by rewrite (start_cached _ _ _ _ E).
  - rewrite (start_fresh _ _ _ E). repeat split; [by eexists|].
    intros b entry Hb. unfold requestsFor. cbn [requests].
    rewrite countRequests_app, countRequests_other; [lia|congruence].
Qed.

Lemma finish_result (c : call) (st : state) :
  (finish load c st).1 = callResult load c.
Proof. destruct c as [|a page]; simpl; [done|]. by destruct (settle load page). Qed.

Lemma finish_state (c : call) (st : state) :
  (finish load c st).2 =
  match c with
  | Returned _ => st
  | Awaiting a page =>
      {| cache := <[a := (settle load page).2]> (cache st); requests := requests st |}
  end.
Proof. destruct c as [|a page]; simpl; [done|]. by destruct (settle load page). Qed.

Lemma scrape_cached (a : string) (skip : bool) (st : state) (entry : ScrapedTokenData) :
  cache st !! a = Some entry ->
  scrapeTokenDescription load net a skip st =
  (orNoDescription (description entry), st).
Proof. intros H. unfold scrapeTokenDescription. by rewrite (start_cached _ _ _ _ H). Qed.

Lemma scrape_fresh (a : string) (skip : bool) (st : state) :
  cache st !! a = None ->
  scrapeTokenDescription load net a skip st =
  ((fetched load net a (requestsFor a st)).1,
   {| cache := <[a := (fetched load net a (requestsFor a st)).2]> (cache st);
      requests := requests st ++ [pageUrl a] |}).
Proof.
  intros H. unfold scrapeTokenDescription. rewrite (start_fresh _ _ _ H).
  unfold fetched. simpl. by destruct (settle load _).
Qed.

(** *** A batch *)

Lemma starts_spec (addrs : list string) (st : state) :
  let '(calls, st1) := mapState (fun a => start net a true) addrs st in
  cache st1 = cache st
  /\ Forall2 (ownCall net st) addrs calls
  /\ (forall b entry, cache st !! b = Some entry ->
        requestsFor b st1 = requestsFor b st).
Proof.
  revert st. induction addrs as [|a addrs IH]; intros st; simpl; [done|].
  pose proof (start_spec a true st) as Ha.
  destruct (start net a true st) as [c st1]. destruct Ha as (Hc & Hown & Hreq).
  specialize (IH st1). destruct (mapState _ addrs st1) as [calls st2].
  destruct IH as (Hc2 & Hcalls & Hreq2).
  split; [congruence|]. split.
  - constructor; [done|].
    eapply Forall2_impl; [exact Hcalls|]. intros b c'. unfold ownCall. by rewrite Hc.
  - intros b entry Hb. rewrite (Hreq2 b entry); [by eapply Hreq|by rewrite Hc].
Qed.

Lemma finishes_spec (calls : list call) (st : state) :
  let '(descs, st2) := mapState (finish load) calls st in
  descs = List.map (callResult load) calls
  /\ requests st2 = requests st
  /\ (forall a, (forall p, Awaiting a p ∉ calls) -> cache st2 !! a = cache st !! a)
  /\ (forall a entry, cache st2 !! a = Some entry ->
        cache st !! a = Some entry
        \/ exists p, Awaiting a p ∈ calls /\ entry = (settle load p).2).
Proof.
  revert st. induction calls as [|c calls IH]; intros st; simpl.
  { repeat split; auto. }
  pose proof (finish_result c st) as Hd. pose proof (finish_state c st) as Hs.
  destruct (finish load c st) as [d st1]. simpl in Hd, Hs.
  specialize (IH st1). destruct (mapState _ calls st1) as [descs st2].
  destruct IH as (-> & Hreq & Hkeep & Hnew).
  split; [by rewrite Hd|]. split; [|split].
  - rewrite Hreq, Hs. by destruct c.
  - intros a Ha. rewrite Hkeep; [|intros p Hp; apply (Ha p); by right].
    rewrite Hs. destruct c as [|b page]; [done|]. simpl.
    apply lookup_insert_ne. intros ->. apply (Ha page). by left.
  - intros a entry He. destruct (Hnew a entry He) as [H1|(p & Hp & ->)].
    + rewrite Hs in H1. destruct c as [|b page]; [by left|]. simpl in H1.
      destruct (decide (b = a)) as [->|Hne].
      * rewrite lookup_insert_eq in H1. injection H1 as <-.
        right. exists page. split; [by left | done].
      * rewrite lookup_insert_ne in H1 by done. by left.
    + right. exists p. split; [by right | done].
Qed.

Lemma collect_lookup (pairs : list (string * string)) (m : gmap string string)
    (a : string) :
  (a ∈ pairs.*1 \/ is_Some (m !! a) -> is_Some (collect (List.map Fulfilled pairs) m !! a))
  /\ (forall d, collect (List.map Fulfilled pairs) m !! a = Some d ->
        (a, d) ∈ pairs \/ m !! a = Some d).
Proof.
  revert m. induction pairs as [|[b d'] pairs IH]; intros m; simpl.
  { split; [|by right]. intros [H|H]; [by apply elem_of_nil in H | done]. }
  destruct (IH (<[b := d']> m)) as [IH1 IH2]. split.
  - intros H. apply IH1. destruct (decide (a = b)) as [->|Hne].
    + right. rewrite lookup_insert_eq. by eexists.
    + rewrite lookup_insert_ne by done.
      destruct H as [H|H]; [|by right]. left.
      apply elem_of_cons in H as [H|H]; [done | done].
  - intros d Hd. destruct (IH2 d Hd) as [H|H]; [left; by right|].
    destruct (decide (b = a)) as [->|Hne].
    + rewrite lookup_insert_eq in H. injection H as ->. left. by left.
    + rewrite lookup_insert_ne in H by done. by right.
Qed.

Lemma ownCall_awaiting (st : state) (b a : string) (p : settled string) :
  ownCall net st b (Awaiting a p) ->
  b = a /\ cache st !! a = None
  /\ exists n, p = fetchTokenPage (net (pageUrl a) n).
Proof.
  unfold ownCall. destruct (cache st !! b) eqn:E; [done|].
  intros (n & [= <- ->]). eauto.
Qed.

Lemma ownCall_result (st : state) (a : string) (c : call) :
  ownCall net st a c -> ownResult load net st a (callResult load c).
Proof.
  unfold ownCall, ownResult. destruct (cache st !! a); [by intros ->|].
  intros (n & ->). by exists n.
Qed.

Lemma combine_fst {A B : Type} (l1 : list A) (l2 : list B) :
  length l1 = length l2 -> (List.combine l1 l2).*1 = l1.
Proof.
  revert l2. induction l1 as [|x l1 IH]; intros [|y l2]; simpl; try done.
  intros [= H]. by rewrite IH.
Qed.

Lemma combine_results (P : string -> call -> Prop) (addrs : list string)
    (calls : list call) (a d : string) :
  Forall2 P addrs calls ->
  (a, d) ∈ List.combine addrs (List.map (callResult load) calls) ->
  exists c, P a c /\ d = callResult load c.
Proof.
  induction 1 as [|b c addrs calls Hbc _ IH]; simpl.
  - by intros ?%elem_of_nil.
  - intros [[= -> ->]|H]%elem_of_cons; [by exists c | by apply IH].
Qed.

Lemma processBatch_spec (addrs : list string) (st : state) :
  let '(results, st2) := processBatch load net addrs st in
  (forall a, a ∈ addrs <-> is_Some (results !! a))
  /\ (forall a d, results !! a = Some d -> ownResult load net st a d)
  /\ extends load net st st2.
Proof.
  unfold processBatch.
  pose proof (starts_spec addrs st) as H1.
  destruct (mapState _ addrs st) as [calls st1].
  destruct H1 as (Hc1 & Hcalls & Hreq1).
  pose proof (finishes_spec calls st1) as H2.
  destruct (mapState _ calls st1) as [descs st2].
  destruct H2 as (-> & Hreq2 & Hkeep & Hnew).
  assert (length addrs = length (List.map (callResult load) calls)) as Hlen.
  { rewrite length_map. by eapply Forall2_length. }
  assert (forall a p, Awaiting a p ∈ calls ->
            cache st !! a = None
            /\ exists n, p = fetchTokenPage (net (pageUrl a) n)) as Hawait.
  { intros a p (i & Hi)%list_elem_of_lookup.
    destruct (Forall2_lookup_r _ _ _ _ _ Hcalls Hi) as (b & _ & Hb).
    apply ownCall_awaiting in Hb. tauto. }
  split; [|split].
  - intros a.
    destruct (collect_lookup (List.combine addrs (List.map (callResult load) calls))
                ∅ a) as [Hin Hout].
    rewrite combine_fst in Hin by done. split.
    + intros Ha. apply Hin. by left.
    + intros [d Hd]. destruct (Hout d Hd) as [H|H]; [|by rewrite lookup_empty in H].
      apply list_elem_of_In, in_combine_l in H. by apply list_elem_of_In.
  - intros a d Hd.
    destruct (collect_lookup (List.combine addrs (List.map (callResult load) calls))
                ∅ a) as [_ Hout].
    destruct (Hout d Hd) as [H|H]; [|by rewrite lookup_empty in H].
    destruct (combine_results _ _ _ _ _ Hcalls H) as (c & Hc & ->).
    by apply ownCall_result.
  - split.
    + intros a entry Ha. split.
      * rewrite Hkeep; [by rewrite Hc1|].
        intros p Hp. destruct (Hawait a p Hp) as [Hnone _]. congruence.
      * unfold requestsFor in *. rewrite Hreq2. by eapply Hreq1.
    + intros a entry Ha. destruct (Hnew a entry Ha) as [H|(p & Hp & ->)].
      * left. by rewrite <- Hc1.
      * right. destruct (Hawait a p Hp) as (Hnone & n & ->). eauto.
Qed.

(** *** Several batches *)

Lemma extends_refl (st : state) : extends load net st st.
Proof. split; [by intros a entry H | intros a entry H; by left]. Qed.

Lemma extends_trans (st1 st2 st3 : state) :
  extends load net st1 st2 -> extends load net st2 st3 -> extends load net st1 st3.
Proof.
  intros [K1 N1] [K2 N2]. split.
  - intros a entry H. destruct (K1 a entry H) as [H2 R2].
    destruct (K2 a entry H2) as [H3 R3]. split; [done | congruence].
  - intros a entry H. destruct (N2 a entry H) as [H2|[H2 Hn]].
    + by apply N1.
    + right. split; [|done].
      destruct (cache st1 !! a) as [entry1|] eqn:E; [|done].
      destruct (K1 a entry1 E) as [? _]. congruence.
Qed.

Lemma ownResult_extends (st st' : state) (a d : string) :
  extends load net st st' -> ownResult load net st' a d -> ownResult load net st a d.
Proof.
  intros [K N]. unfold ownResult.
  destruct (cache st' !! a) as [entry|] eqn:E'.
  - intros ->. destruct (N a entry E') as [->|[-> (n & ->)]]; [done|].
    exists n. unfold fetched. by rewrite settle_consistent.
  - intros Hd. destruct (cache st !! a) as [entry|] eqn:E; [|done].
    destruct (K a entry E) as [? _]. congruence.
Qed.

Lemma slice_rest {A : Type} (i n : nat) (l : list A) :
  slice i (i + n) l ++ List.skipn (i + n) l = List.skipn i l.
Proof.
  unfold slice. replace (i + n - i)%nat with n by lia.
  rewrite Nat.add_comm, <- List.skipn_skipn. apply List.firstn_skipn.
Qed.

Lemma batchLoop_spec (fuel i : nat) (addrs : list string)
    (results : gmap string string) (st : state) :
  (length addrs - i <= fuel)%nat ->
  let '(results', st') := batchLoop load net fuel i addrs results st in
  extends load net st st'
  /\ dom results' = dom results ∪ list_to_set (List.skipn i addrs)
  /\ (forall a d, results' !! a = Some d ->
        results !! a = Some d \/ ownResult load net st a d).
Proof.
  revert i results st. induction fuel as [|fuel IH]; intros i results st Hfuel.
  - simpl. rewrite List.skipn_all2 by lia. split; [apply extends_refl|].
    split; [set_solver | by left].
  - simpl. destruct (Nat.ltb_spec i (length addrs)) as [Hi|Hi].
    + pose proof (processBatch_spec (slice i (i + batchSize config) addrs) st) as Hb.
      destruct (processBatch _ _ _ st) as [batchResults st1].
      destruct Hb as (Hdom & Hown & Hext).
      specialize (IH (i + batchSize config)%nat (batchResults ∪ results) st1).
      destruct (batchLoop _ _ fuel _ addrs _ st1) as [results' st'].
      destruct IH as (Hext' & Hdom' & Hown'); [simpl; lia|].
      split; [by eapply extends_trans|]. split.
      * rewrite Hdom', dom_union_L, <- (slice_rest i (batchSize config) addrs).
        rewrite list_to_set_app_L.
        assert (dom batchResults
                = list_to_set (slice i (i + batchSize config) addrs)) as ->; [|set_solver].
        apply set_eq. intros a. rewrite elem_of_dom, elem_of_list_to_set.
        symmetry. apply Hdom.
      * intros a d Hd. destruct (Hown' a d Hd) as [H|H].
        -- apply lookup_union_Some_raw in H as [H|[_ H]]; [right; by apply Hown | by left].
        -- right. by eapply ownResult_extends.
    + rewrite List.skipn_all2 by lia. split; [apply extends_refl|].
      split; [set_solver | by left].
Qed.


(** The bound on the rounds is never reached: more rounds change
    nothing. *)
Lemma batchLoop_fuel (fuel fuel' i : nat) (addrs : list string)
    (results : gmap string string) (st : state) :
  (length addrs - i <= fuel)%nat -> (fuel <= fuel')%nat ->
  batchLoop load net fuel' i addrs results st
  = batchLoop load net fuel i addrs results st.
Proof.
  revert fuel' i results st. induction fuel as [|fuel IH];
    intros fuel' i results st Hfuel Hle.
  - destruct fuel' as [|fuel']; simpl; [done|].
    destruct (Nat.ltb_spec i (length addrs)); [lia | done].
  - destruct fuel' as [|fuel']; [lia|]. simpl.
    destruct (Nat.ltb_spec i (length addrs)); [|done].
    destruct (processBatch _ _ _ st) as [batchResults st1].
    apply IH; simpl; lia.
Qed.

(** *** Batches without duplicates *)

Lemma start_sameFor (a : string) (skip skip' : bool) (st st' : state) :
  sameFor a st st' -> (start net a skip st').1 = (start net a skip' st).1.
Proof.
  intros [Hc Hr]. unfold start. rewrite Hc.
  destruct (cache st !! a); [done|]. cbn [fst]. unfold requestsFor in Hr.
  by rewrite Hr.
Qed.

Lemma scrape_sameFor (a : string) (skip skip' : bool) (st st' : state) :
  sameFor a st st' ->
  (scrapeTokenDescription load net a skip st').1
  = (scrapeTokenDescription load net a skip' st).1.
Proof.
  intros H. unfold scrapeTokenDescription.
  pose proof (start_sameFor a skip skip' st st' H) as Hs.
  destruct (start net a skip st') as [c' st1'], (start net a skip' st) as [c st1].
  simpl in Hs. subst c'. by rewrite !finish_result.
Qed.

Lemma start_other (a b : string) (skip : bool) (st : state) :
  a <> b -> sameFor b st (start net a skip st).2.
Proof.
  intros Hne. unfold start. destruct (cache st !! a); [done|].
  split; [done|]. unfold requestsFor. cbn [snd requests].
  rewrite countRequests_app, countRequests_other; [lia|done].
Qed.

Lemma sameFor_trans (a : string) (st1 st2 st3 : state) :
  sameFor a st1 st2 -> sameFor a st2 st3 -> sameFor a st1 st3.
Proof. intros [] []. split; congruence. Qed.

Lemma starts_exact (addrs : list string) (st0 st : state) :
  NoDup addrs ->
  (forall b, b ∈ addrs -> sameFor b st0 st) ->
  let '(calls, st1) := mapState (fun a => start net a true) addrs st in
  Forall2 (fun a c => c = (start net a true st0).1) addrs calls
  /\ (forall b, b ∉ addrs -> sameFor b st st1).
Proof.
  revert st. induction addrs as [|a addrs IH]; intros st Hnd Hsame; simpl.
  { split; [constructor | by intros b _]. }
  apply NoDup_cons in Hnd as [Hnotin Hnd].
  pose proof (fun b => start_other a b true st) as Hother.
  pose proof (start_sameFor a true true st0 st (Hsame a ltac:(by left))) as Ha.
  destruct (start net a true st) as [c st']. simpl in Ha, Hother.
  specialize (IH st' Hnd). destruct (mapState _ addrs st') as [calls st1].
  destruct IH as [Hcalls Hrest].
  { intros b Hb. eapply sameFor_trans; [apply Hsame; by right|].
    apply Hother. by intros ->. }
  split; [by constructor|].
  intros b Hb. apply not_elem_of_cons in Hb as [Hne Hb].
  eapply sameFor_trans; [by apply Hother | by apply Hrest].
Qed.

Lemma processBatch_exact (addrs : list string) (st : state) :
  NoDup addrs ->
  let '(results, st2) := processBatch load net addrs st in
  (forall a d, results !! a = Some d ->
     d = (scrapeTokenDescription load net a true st).1)
  /\ (forall b, b ∉ addrs -> sameFor b st st2).
Proof.
  intros Hnd. unfold processBatch.
  pose proof (starts_exact addrs st st Hnd (fun b _ => conj eq_refl eq_refl)) as H1.
  pose proof (starts_spec addrs st) as H1'.
  destruct (mapState _ addrs st) as [calls st1].
  destruct H1 as [Hcalls Hrest]. destruct H1' as (_ & Hown & _).
  pose proof (finishes_spec calls st1) as H2.
  destruct (mapState _ calls st1) as [descs st2].
  destruct H2 as (-> & Hreq2 & Hkeep & _). split.
  - intros a d Hd.
    destruct (collect_lookup (List.combine addrs (List.map (callResult load) calls))
                ∅ a) as [_ Hout].
    destruct (Hout d Hd) as [H|H]; [|by rewrite lookup_empty in H].
    destruct (combine_results _ _ _ _ _ Hcalls H) as (c & -> & ->).
    unfold scrapeTokenDescription. destruct (start net a true st) as [c st'].
    by rewrite finish_result.
  - intros b Hb. eapply sameFor_trans; [by apply Hrest|]. split.
    + apply Hkeep. intros p (i & Hi)%list_elem_of_lookup.
      destruct (Forall2_lookup_r _ _ _ _ _ Hown Hi) as (b' & Hb' & Hcall).
      apply ownCall_awaiting in Hcall as (-> & _). apply Hb.
      apply list_elem_of_lookup. by exists i.
    + unfold requestsFor. by rewrite Hreq2.
Qed.

Lemma batchLoop_exact (fuel i : nat) (addrs : list string)
    (results : gmap string string) (st : state) :
  NoDup (List.skipn i addrs) ->
  let '(results', st') := batchLoop load net fuel i addrs results st in
  forall a d, results' !! a = Some d ->
    results !! a = Some d
    \/ (a ∈ List.skipn i addrs /\ d = (scrapeTokenDescription load net a true st).1).
Proof.
  revert i results st. induction fuel as [|fuel IH]; intros i results st Hnd; simpl.
  { intros a d H. by left. }
  destruct (i <? length addrs)%nat; [|intros a d H; by left].
  rewrite <- (slice_rest i (batchSize config) addrs) in Hnd |- *.
  apply NoDup_app in Hnd as (Hnd1 & Hdisj & Hnd2).
  pose proof (processBatch_exact (slice i (i + batchSize config) addrs) st Hnd1) as Hb.
  pose proof (processBatch_spec (slice i (i + batchSize config) addrs) st) as Hb'.
  destruct (processBatch _ _ _ st) as [batchResults st1].
  destruct Hb as [Hexact Hsame]. destruct Hb' as (Hdom & _ & _).
  specialize (IH (i + batchSize config)%nat (batchResults ∪ results) st1 Hnd2).
  destruct (batchLoop _ _ fuel _ addrs _ st1) as [results' st'].
  intros a d Hd. destruct (IH a d Hd) as [H|[Hin ->]].
  - apply lookup_union_Some_raw in H as [H|[_ H]]; [|by left].
    right. split; [|by apply Hexact].
    apply elem_of_app. left. apply Hdom. by eexists.
  - right. split; [apply elem_of_app; by right|].
    apply scrape_sameFor, Hsame. intros Hbatch. by apply (Hdisj a).
Qed.


(** *** Runs of operations *)




(** After an eviction the page is requested again. *)
Lemma scrape_after_eviction (a : string) (skip : bool) (st : state) :
  let st1 := clearTokenFromCache a st in
  requestsFor a (scrapeTokenDescription load net a skip st1).2
  = S (requestsFor a st)
  /\ requestsFor a (scrapeTokenDescription load net a skip (clearCache st)).2
    = S (requestsFor a st).
Proof.
  cbv zeta. split.
  - rewrite scrape_fresh by apply lookup_delete_eq.
    unfold requestsFor. cbn [snd requests clearTokenFromCache].
    rewrite countRequests_app, countRequests_same. lia.
  - rewrite scrape_fresh by apply lookup_empty.
    unfold requestsFor. cbn [snd requests clearCache].
    rewrite countRequests_app, countRequests_same. lia.
Qed.




End ScraperFacts.



(** ** The list service *)

Section ListService.
Import JS Scraper Net Api Enrichment.

Variable load : string -> option Dom.document.
Variable net : network.
Variable JSON_parse : string -> option parsed.

Lemma enhance_empty (elapsed : option N) (st : PumpFunScraper.state) :
  enhanceTokensWithDescriptions load net [] elapsed st = [].
Proof. done. Qed.

Lemma race_timedOut {A : Type} (elapsed : option N) (scraped : A) :
  timedOut elapsed -> exists e, race elapsed scraped = Rejected e.
Proof.
  destruct elapsed as [t|]; simpl; [|by eexists].
  intros H. destruct (N.ltb_spec t scrapingTimeout); [lia | by eexists].
Qed.


Lemma getPumpList_delivers (response : settled Response) (tokens : list PumpCoin)
    (elapsed : option N) (st : PumpFunScraper.state) :
  delivers JSON_parse response tokens ->
  getPumpList load net JSON_parse response elapsed st
  = enhanceTokensWithDescriptions load net tokens elapsed st.
Proof.
  intros (res & responseText & -> & Hok & Hbody & Hparse).
  unfold getPumpList, fetchAndEnhance. simpl.
  rewrite Hok, Hbody. simpl. rewrite Hparse. simpl.
  by destruct (enhanceTokensWithDescriptions load net tokens elapsed st).
Qed.

(** C2.  [getPumpList] always yields a list: a rejection of the body
    of its [try] block becomes the empty list.  When the upstream
    request rejects, when the status is not 2xx, and when the body
    cannot be read or is not of the expected shape, the result is the
    empty list. *)
Theorem upstream_failure_gives_empty (response : settled Response)
    (elapsed : option N) (st : PumpFunScraper.state) :
  (forall e, fetchAndEnhance load net JSON_parse response elapsed st = Rejected e ->
     getPumpList load net JSON_parse response elapsed st = [])
  /\ (upstreamFailure JSON_parse response ->
      getPumpList load net JSON_parse response elapsed st = []).
Proof.
  split.
  - intros e H. unfold getPumpList. by rewrite H.
  - unfold getPumpList, fetchAndEnhance.
    destruct 1 as [e|res Hok|res e Hbody|res responseText Hbody Hparse
                  |res responseText Hbody Hparse|res responseText Hbody Hparse];
      simpl; try done.
    + by rewrite Hok.
    + destruct (ok res); simpl; [|done]. by rewrite Hbody.
    + destruct (ok res); simpl; [|done]. rewrite Hbody. simpl. by rewrite Hparse.
    + destruct (ok res); simpl; [|done]. rewrite Hbody. simpl. by rewrite Hparse.
    + destruct (ok res); simpl; [|done]. rewrite Hbody. simpl. by rewrite Hparse.
Qed.

(** C5.  When the scraping does not settle within the timeout of
    15000 ms, the enrichment leaves the tokens as they are and
    [getPumpList] returns the list the upstream delivered: the timeout
    is caught, it does not make the call fail. *)
Theorem timeout_returns_unenriched (response : settled Response)
    (tokens : list PumpCoin) (elapsed : option N) (st : PumpFunScraper.state) :
  timedOut elapsed ->
  enhanceTokensWithDescriptions load net tokens elapsed st = tokens
  /\ (delivers JSON_parse response tokens ->
      getPumpList load net JSON_parse response elapsed st = tokens).
Proof.
  intros Hlate.
  assert (enhanceTokensWithDescriptions load net tokens elapsed st = tokens) as H.
  { unfold enhanceTokensWithDescriptions.
    destruct (length _ =? 0)%nat; [done|].
    by destruct (race_timedOut elapsed
                   (PumpFunScraper.scrapeMultipleTokens load net
                      (List.map address (List.filter needsScraping tokens)) st).1
                   Hlate) as [e ->]. }
  split; [done|]. intros Hd. by rewrite (getPumpList_delivers _ _ _ _ Hd).
Qed.





End ListService.

Lemma upstream_failure_gives_empty_witness :
  Api.getPumpList Sample.load Sample.net Sample.JSON_parse
    (Net.Rejected (Net.ErrorObject "fetch failed")) (Some 100%N)
    PumpFunScraper.initial = []
  /\ Api.getPumpList Sample.load Sample.net Sample.JSON_parse
       (Sample.respond "<html>Bad Gateway</html>") (Some 100%N)
       PumpFunScraper.initial = [].
Proof.
  split.
  - apply (upstream_failure_gives_empty Sample.load Sample.net Sample.JSON_parse).
    apply Enrichment.NetworkError.
  - apply (upstream_failure_gives_empty Sample.load Sample.net Sample.JSON_parse).
    eapply Enrichment.NotJson; reflexivity.
Defined.

Lemma timeout_returns_unenriched_witness :
  Api.getPumpList Sample.load Sample.net Sample.JSON_parse
    (Sample.respond "{rank: A}") None PumpFunScraper.initial = Sample.scenarioA.
Proof.
  apply (timeout_returns_unenriched Sample.load Sample.net Sample.JSON_parse
           (Sample.respond "{rank: A}") Sample.scenarioA None PumpFunScraper.initial I).
  eexists _, _. repeat split; reflexivity.
Defined.



(** * Further properties *)

(** ** The filter *)

Section FilterMore.
Import JS Scraper Shapes.

(** X1.  The three filters are nested: what [isValidTextBlock] accepts,
    [isValidDescription] accepts without leniency, and what it accepts
    without leniency it accepts with leniency. *)
Theorem filters_nested (t : string) :
  (isValidTextBlock t = true -> isValidDescription t false = true)
  /\ (isValidDescription t false = true -> isValidDescription t true = true).
Proof.
  split.
  - by intros [H _]%isValidTextBlock_cases.
  - rewrite !isValidDescription_true. intros (H1 & H2 & H3 & H4 & _).
    repeat split; try done. by left.
Qed.

Lemma split_nonempty (sep : ascii) (s : string) : split sep s <> [].
Proof.
  destruct s as [|c s]; simpl; [done|].
  destruct (Ascii.eqb c sep); [done|]. by destruct (split sep s).
Qed.

Lemma split_length_cons (sep c : ascii) (s : string) :
  Ascii.eqb c sep = false ->
  length (split sep (String c s)) = length (split sep s).
Proof.
  intros E. simpl. rewrite E.
  pose proof (split_nonempty sep s). by destruct (split sep s).
Qed.

Lemma space_is_whiteSpace (c : ascii) :
  isWhiteSpace c = false -> Ascii.eqb c " " = false.
Proof.
  intros H. destruct (Ascii.eqb_spec c " ") as [->|]; [discriminate H | done].
Qed.

Lemma normalized_pieces (b : bool) (s : string) :
  Spec.normalizedFrom b s = true ->
  if b then s <> EmptyString ->
            length (split " " s) = Spec.countWordsFrom false s
  else length (split " " s) = S (Spec.countWordsFrom true s).
Proof.
  revert b. induction s as [|c s IH]; intros b H.
  { by destruct b. }
  cbn [Spec.normalizedFrom Spec.countWordsFrom] in *.
  destruct (isWhiteSpace c) eqn:E.
  - apply andb_prop in H as [H Hrest]. apply andb_prop in H as [H Hs].
    apply andb_prop in H as [Hb Hc]. destruct b; [done|].
    apply Ascii.eqb_eq in Hc as ->. apply truthy_true in Hs.
    specialize (IH true Hrest Hs). simpl. by rewrite IH.
  - specialize (IH false H). cbn beta iota in IH.
    rewrite (split_length_cons _ _ _ (space_is_whiteSpace c E)).
    by destruct b.
Qed.

(** X2.  On a whitespace-normalized text the pieces between single spaces
    are the words: such a text of fewer than three words is rejected by
    [isValidTextBlock]. *)
Theorem normalized_short_text_rejected (t : string) :
  Spec.whitespaceNormalized t = true ->
  (Spec.wordCount t < 3)%nat ->
  isValidTextBlock t = false.
Proof.
  intros Hn Hw. destruct t as [|c t]; [reflexivity|].
  apply fewer_than_three_pieces_rejected.
  rewrite (normalized_pieces true _ Hn) by done.
  unfold Spec.wordCount in Hw. lia.
Qed.

End FilterMore.

Lemma normalized_short_text_rejected_witness :
  Scraper.isValidTextBlock "hello world" = false.
Proof.
  apply (normalized_short_text_rejected "hello world"); [reflexivity|].
  apply Nat.ltb_lt. reflexivity.
Defined.

Lemma filters_nested_witness :
  Scraper.isValidDescription "The first dog on the moon" false = true
  /\ Scraper.isValidDescription "The first dog on the moon" true = true.
Proof.
  assert (Scraper.isValidTextBlock "The first dog on the moon" = true) as H
    by reflexivity.
  apply (proj1 (filters_nested _)) in H. split; [exact H|].
  exact (proj2 (filters_nested _) H).
Defined.

(** ** The matcher on texts of a known shape *)

Section Matcher.
Import JS Scraper Shapes.

Lemma append_nil (s : string) : "" +:+ s = s.
Proof. reflexivity. Qed.

Lemma append_cons (c : ascii) (w s : string) :
  String c w +:+ s = String c (w +:+ s).
Proof. reflexivity. Qed.

Lemma iterate_class (i : bool) (cl : cclass) (w rest : string) (k : cont)
    (prev : option ascii) (fuel : nat) :
  allOf (inClass i cl) w = true ->
  (String.length (w +:+ rest) <= fuel)%nat ->
  k (lastChar prev w) rest = true ->
  iterate (matchAt i (Class cl)) fuel prev (w +:+ rest) k = true.
Proof.
  revert prev fuel. induction w as [|c w IH]; intros prev fuel Hw Hfuel Hk.
  - rewrite append_nil. simpl in Hk.
    destruct fuel; cbn [iterate]; [done|]. by rewrite Hk, orb_true_r.
  - rewrite append_cons in *. simpl in Hw, Hfuel, Hk.
    apply andb_prop in Hw as [Hc Hw].
    destruct fuel as [|fuel]; [lia|].
    cbn [iterate matchAt]. rewrite Hc.
    rewrite IH; [|done|lia|done].
    replace (_ <? _)%nat with true; [done|].
    symmetry. apply Nat.ltb_lt. simpl. lia.
Qed.

Lemma plus_class (i : bool) (cl : cclass) (w rest : string) (k : cont)
    (prev : option ascii) :
  w <> EmptyString ->
  allOf (inClass i cl) w = true ->
  k (lastChar prev w) rest = true ->
  matchAt i (Plus (Class cl)) prev (w +:+ rest) k = true.
Proof.
  destruct w as [|c w]; [done|]. intros _ Hw Hk.
  simpl in Hw. apply andb_prop in Hw as [Hc Hw].
  rewrite append_cons. cbn [matchAt]. rewrite Hc. by apply iterate_class.
Qed.

Lemma lit_matches (u w rest : string) (k : cont) (prev : option ascii) :
  Spec.equalsIgnoreCase u w = true ->
  k (lastChar prev w) rest = true ->
  matchAt true (lit u) prev (w +:+ rest) k = true.
Proof.
  revert w prev. induction u as [|c u IH]; intros [|d w] prev; simpl; try done.
  intros [Hc Hu]%andb_prop Hk. rewrite append_cons.
  destruct u as [|c' u].
  - destruct w; [|done]. rewrite append_nil. cbn [matchAt]. unfold charEq.
    by rewrite Hc.
  - cbn [matchAt]. unfold charEq at 1. rewrite Hc.
    by apply IH.
Qed.

Lemma alt_matches (i : bool) (r' r : regex) (rs : list regex)
    (prev : option ascii) (s : string) (k : cont) :
  r' ∈ r :: rs ->
  matchAt i r' prev s k = true ->
  matchAt i (alt r rs) prev s k = true.
Proof.
  revert r. induction rs as [|r2 rs IH]; intros r Hin Hm.
  - apply list_elem_of_singleton in Hin as ->. done.
  - cbn [alt matchAt]. apply elem_of_cons in Hin as [->|Hin].
    + by rewrite Hm.
    + rewrite (IH r2 Hin Hm). apply orb_true_r.
Qed.

Lemma unit_matches (u w s rest : string) (k : cont) (prev : option ascii) :
  u ∈ timeUnits ->
  Spec.equalsIgnoreCase u w = true ->
  s = EmptyString \/ Spec.equalsIgnoreCase "s" s = true ->
  k (lastChar (lastChar prev w) s) rest = true ->
  matchAt true unit_ prev (w +:+ s +:+ rest) k = true.
Proof.
  intros Hu Hw Hs Hk. unfold unit_.
  cbn [matchAt]. apply alt_matches with (r' := lit u).
  - change (lit u ∈ lit <$> timeUnits). by apply list_elem_of_fmap_2.
  - apply lit_matches; [done|]. cbn beta. cbn [matchAt]. destruct Hs as [->|Hs].
    + rewrite append_nil. simpl in Hk. by rewrite Hk, orb_true_r.
    + apply orb_true_iff. left.
      exact (lit_matches "s" s rest k (lastChar prev w) Hs Hk).
Qed.

Lemma search_at (i : bool) (r : regex) (p s : string) (prev : option ascii) :
  matchAt i r (lastChar prev p) s (fun _ _ => true) = true ->
  searchFrom i r prev (p +:+ s) = true.
Proof.
  revert prev. induction p as [|c p IH]; intros prev H; simpl in H.
  - rewrite append_nil. destruct s; cbn [searchFrom]; by rewrite H.
  - rewrite append_cons. cbn [searchFrom]. rewrite (IH _ H). apply orb_true_r.
Qed.

Lemma digit_is_word (c : ascii) : isDigit c = true -> isWordChar c = true.
Proof. unfold isWordChar. intros ->. by rewrite !orb_true_r. Qed.

Lemma ago_ends_word (w : string) (prev : option ascii) :
  Spec.equalsIgnoreCase "ago" w = true -> wordBefore (lastChar prev w) = true.
Proof.
  destruct w as [|c1 [|c2 [|c3 [|c4 w]]]]; simpl; try done;
    rewrite ?andb_false_r; try done.
  intros [_ [_ [H _]%andb_prop]%andb_prop]%andb_prop. revert H. clear.
  destruct c3 as [[] [] [] [] [] [] [] []]; vm_compute; congruence.
Qed.

(** X3.  A text that holds, between word boundaries, a number, white space,
    a time unit with or without its plural, white space and "ago", in
    any letter case, is rejected by [isValidDescription] in both modes,
    whatever stands before and after. *)
Theorem relative_age_rejected (p ds ws1 u w s ws2 ago q : string)
    (isMetaTag : bool) :
  wordBefore (lastChar None p) = false ->
  ds <> EmptyString -> allOf isDigit ds = true ->
  ws1 <> EmptyString -> allOf isWhiteSpace ws1 = true ->
  u ∈ timeUnits -> Spec.equalsIgnoreCase u w = true ->
  s = EmptyString \/ Spec.equalsIgnoreCase "s" s = true ->
  ws2 <> EmptyString -> allOf isWhiteSpace ws2 = true ->
  Spec.equalsIgnoreCase "ago" ago = true ->
  wordAfter q = false ->
  isValidDescription (p +:+ ds +:+ ws1 +:+ w +:+ s +:+ ws2 +:+ ago +:+ q) isMetaTag
  = false.
Proof.
  intros Hp Hds1 Hds2 Hw1 Hw1' Hu Hw Hs Hw2 Hw2' Hago Hq.
  set (text := p +:+ _).
  assert (matchesTimePattern text = true) as Hmatch.
  { unfold matchesTimePattern, timePatterns. cbn [existsb].
    apply orb_true_iff. left. unfold test. cbn [source ignoreCase].
    apply search_at. cbn [seq]. cbn [matchAt].
    assert (wordAfter (ds +:+ ws1 +:+ w +:+ s +:+ ws2 +:+ ago +:+ q) = true) as ->.
    { destruct ds as [|c ds]; [done|]. rewrite append_cons. simpl in *.
      apply andb_prop in Hds2 as [Hc _]. by apply digit_is_word. }
    rewrite Hp. cbn [xorb andb].
    apply (plus_class true ClsDigit); [done..|].
    apply (plus_class true ClsSpace); [done..|].
    apply unit_matches with (u := u); [done..|].
    apply (plus_class true ClsSpace); [done..|].
    apply lit_matches; [done|].
    cbn [matchAt]. rewrite Hq, (ago_ends_word _ _ Hago). done. }
  destruct (isValidDescription text isMetaTag) eqn:E; [|done].
  apply isValidDescription_true in E as (_ & _ & E & _). congruence.
Qed.

End Matcher.

Lemma relative_age_rejected_witness :
  Scraper.isValidDescription "Token created 15  Minutes AGO, on pump.fun" true = false
  /\ Scraper.isValidDescription "created 1 hour ago" false = false.
Proof.
  split.
  - apply (relative_age_rejected "Token created " "15" "  " "minute" "Minute" "s"
             " " "AGO" ", on pump.fun" true); try done.
    + apply list_elem_of_In. simpl. tauto.
    + by right.
  - apply (relative_age_rejected "created " "1" " " "hour" "hour" "" " " "ago" ""
             false); try done.
    + apply list_elem_of_In. simpl. tauto.
    + by left.
Defined.

(** ** The results of the extractor *)

Section ExtractionMore.
Import JS Scraper Dom Extractor.

Lemma collapseFrom_length (b : bool) (s : string) :
  (String.length (collapseFrom b s) <= String.length s)%nat.
Proof.
  revert b. induction s as [|c s IH]; intros b; simpl; [done|].
  destruct (isWhiteSpace c); [destruct b|]; simpl.
  - specialize (IH true). lia.
  - specialize (IH true). lia.
  - specialize (IH false). lia.
Qed.

Lemma trimStart_length (s : string) :
  (String.length (trimStart s) <= String.length s)%nat.
Proof.
  induction s as [|c s IH]; simpl; [done|].
  destruct (isWhiteSpace c); simpl; lia.
Qed.

Lemma trimEnd_length (s : string) :
  (String.length (trimEnd s) <= String.length s)%nat.
Proof.
  induction s as [|c s IH]; simpl; [done|].
  destruct (trimEnd s) as [|d t]; [destruct (isWhiteSpace c)|]; simpl in *; lia.
Qed.

Lemma normalize_length (s : string) :
  (String.length (normalize s) <= String.length s)%nat.
Proof.
  unfold normalize, trim, collapseWhiteSpace.
  pose proof (trimEnd_length (trimStart (collapseFrom false s))).
  pose proof (trimStart_length (collapseFrom false s)).
  pose proof (collapseFrom_length false s). lia.
Qed.

Lemma metaLoop_valid (doc : document) (selectors : list selector) (r : string) :
  metaLoop doc selectors = Some r ->
  exists content, r = normalize content /\ isValidDescription content true = true.
Proof.
  induction selectors as [|sel rest IH]; simpl; [done|].
  destruct (attr _ _) as [content|]; [|done].
  destruct (truthy content); simpl; [|done].
  destruct (isValidDescription content true) eqn:E; [|done].
  intros [= <-]. by eexists.
Qed.

Lemma valid_length (t : string) (isMetaTag : bool) :
  isValidDescription t isMetaTag = true -> (String.length t <= 2500)%nat.
Proof. by intros (_ & H & _)%isValidDescription_true. Qed.

(** X5.  Every description the extractor returns is whitespace-normalized
    and has at most 2500 characters. *)
Theorem extraction_result_shape (load : string -> option document)
    (html r : string) :
  extractDescription load html = Some r ->
  Spec.whitespaceNormalized r = true /\ (String.length r <= 2500)%nat.
Proof.
  unfold extractDescription. destruct (load html) as [doc|]; [|done].
  intros H. split; [by eapply extractFrom_normalized|].
  revert H. unfold extractFrom, findTextBlocks.
  assert (forall c b, isValidDescription c b = true ->
            (String.length (normalize c) <= 2500)%nat) as Hlen.
  { intros c b Hc%valid_length. pose proof (normalize_length c). lia. }
  destruct (metaLoop _ _) as [found|] eqn:E1.
  { intros [= <-]. apply metaLoop_valid in E1 as (c & -> & Hc). by eapply Hlen. }
  destruct (structuralLoop _ _) as [found|] eqn:E2.
  { intros [= <-]. apply structuralLoop_some in E2 as (x & -> & Hx). by eapply Hlen. }
  intros (x & -> & Hx)%textBlockLoop_some. by eapply Hlen.
Qed.

(** X6.  When none of the three meta tags gives an acceptable content, a
    description the extractor returns is not empty: the texts of the
    page are trimmed before they are validated. *)
Theorem extraction_nonempty_without_meta (load : string -> option document)
    (html r : string) (doc : document) :
  load html = Some doc ->
  List.filter (fun c => isValidDescription c true) (Spec.metaCandidates doc) = [] ->
  extractDescription load html = Some r ->
  r <> EmptyString.
Proof.
  unfold extractDescription. intros -> Hmeta.
  apply extractFrom_nonempty_without_meta.
  rewrite metaLoop_first. unfold Spec.metaCandidates in Hmeta. by rewrite Hmeta.
Qed.

End ExtractionMore.

Lemma extraction_result_shape_witness :
  Spec.whitespaceNormalized "The first dog on the moon" = true
  /\ (String.length "The first dog on the moon" <= 2500)%nat.
Proof.
  apply (extraction_result_shape Sample.load "<token>"). reflexivity.
Defined.

Lemma extraction_nonempty_without_meta_witness :
  "The first dog on the moon" <> EmptyString.
Proof.
  apply (extraction_nonempty_without_meta Sample.load "<token>" _ Sample.tokenPage);
    reflexivity.
Defined.

(** ** The scraper: single calls *)

Section ScraperMore.
Import JS Scraper Net PumpFunScraper Own Cached.

Variable load : string -> option Dom.document.
Variable net : network.

(** X7.  A call never returns the empty string.  For a token without a cache
    entry it requests the page once and writes an entry that holds
    either a description that is not empty, which is what the call
    returns, or no description, and then the call returns the
    placeholder. *)
Theorem scrape_never_empty (a : string) (skip : bool) (st : state) :
  let '(d, st') := scrapeTokenDescription load net a skip st in
  d <> EmptyString
  /\ (cache st !! a = None ->
      requests st' = requests st ++ [pageUrl a]
      /\ exists entry, cache st' !! a = Some entry
         /\ (description entry = Some d /\ error entry = None
             \/ description entry = None /\ d = noDescription)).
Proof.
  destruct (cache st !! a) as [entry|] eqn:E.
  - rewrite (scrape_cached _ _ _ _ _ _ E). split; [|done].
    apply truthy_true, orNoDescription_truthy.
  - rewrite (scrape_fresh _ _ _ _ _ E). unfold fetched.
    split; [apply truthy_true, settle_truthy|]. intros _. split; [done|].
    eexists. split; [apply lookup_insert_eq|].
    destruct (fetchTokenPage _) as [html|e]; simpl; [|by right].
    destruct (Extractor.extractDescription load html) as [d|]; simpl; [|by right].
    destruct (truthy d); simpl; [by left | by right].
Qed.

(** X8.  A failure is cached with its message and surfaces as the
    placeholder: when the request for an uncached token rejects, the
    entry holds the message of the error, and when the answer is not
    2xx it holds "HTTP <status>: <status text>", whatever the body. *)
Theorem failure_is_cached (a : string) (skip : bool) (st : state) :
  cache st !! a = None ->
  let answer := net (pageUrl a) (requestsFor a st) in
  let failed (message : string) :=
    scrapeTokenDescription load net a skip st
    = (noDescription,
       {| cache := <[a := {| description := None; error := Some message |}]> (cache st);
          requests := requests st ++ [pageUrl a] |}) in
  (forall message, answer = Rejected (ErrorObject message) -> failed message)
  /\ (answer = Rejected OtherValue -> failed "Unknown error")
  /\ (forall res, answer = Fulfilled res -> ok res = false ->
        failed ("HTTP " +:+ pretty (status res) +:+ ": " +:+ statusText res)).
Proof.
  intros Hfresh. cbv zeta. rewrite (scrape_fresh _ _ _ _ _ Hfresh). unfold fetched.
  split; [|split].
  - by intros message ->.
  - by intros ->.
  - intros res -> Hok. unfold fetchTokenPage. simpl. by rewrite Hok.
Qed.

(** X9.  Evicting a token makes the next call for it request the page
    again, and changes nothing for the other tokens: a call for
    another token returns what it would have returned. *)
Theorem eviction_is_local (a b : string) (skip : bool) (st : state) :
  requestsFor a (scrapeTokenDescription load net a skip (clearTokenFromCache a st)).2
  = S (requestsFor a st)
  /\ (a <> b ->
      (scrapeTokenDescription load net b skip (clearTokenFromCache a st)).1
      = (scrapeTokenDescription load net b skip st).1).
Proof.
  split; [apply (scrape_after_eviction load net a skip st)|].
  intros Hne. apply scrape_sameFor. split; [|done].
  simpl. by apply lookup_delete_ne.
Qed.

End ScraperMore.

(** ** The scraper: batches *)

Section BatchMore.
Import JS Scraper Net PumpFunScraper Own Cached.

Variable load : string -> option Dom.document.
Variable net : network.

Lemma start_shape (a : string) (skip : bool) (st : state) :
  (start net a skip st).1 =
  match cache st !! a with
  | Some entry => Returned (orNoDescription (description entry))
  | None => Awaiting a (fetchTokenPage (net (pageUrl a) (requestsFor a st)))
  end.
Proof. unfold start. by destruct (cache st !! a). Qed.

Lemma start_awaiting (a b : string) (skip : bool) (st : state) (p : settled string) :
  (start net b skip st).1 = Awaiting a p -> b = a.
Proof. rewrite start_shape. destruct (cache st !! b); [done|]. by intros [= ->]. Qed.

Lemma finish_start_entry (a : string) (st0 st1 : state) :
  cache st1 !! a = cache st0 !! a ->
  exists entry,
    cache (finish load (start net a true st0).1 st1).2 !! a = Some entry
    /\ orNoDescription (description entry)
       = (scrapeTokenDescription load net a true st0).1.
Proof.
  intros Hsame. unfold scrapeTokenDescription.
  destruct (start net a true st0) as [c st0'] eqn:Es.
  pose proof (start_shape a true st0) as Hc. rewrite Es in Hc. simpl in Hc.
  rewrite !finish_result, finish_state. cbn [fst].
  destruct (cache st0 !! a) as [entry|] eqn:E; subst c.
  - exists entry. by rewrite Hsame.
  - eexists. cbn [cache]. split; [apply lookup_insert_eq|]. apply settle_consistent.
Qed.

Lemma finish_other (a : string) (c : call) (st : state) :
  (forall p, c <> Awaiting a p) ->
  cache (finish load c st).2 !! a = cache st !! a.
Proof.
  intros Hc. rewrite finish_state. destruct c as [|b p]; [done|].
  cbn [cache]. apply lookup_insert_ne. intros ->. by apply (Hc p).
Qed.

Lemma finishes_cached (addrs : list string) (calls : list call) (st0 st1 : state) :
  NoDup addrs ->
  Forall2 (fun a c => c = (start net a true st0).1) addrs calls ->
  (forall a, a ∈ addrs -> cache st1 !! a = cache st0 !! a) ->
  forall a, a ∈ addrs ->
    exists entry,
      cache (mapState (finish load) calls st1).2 !! a = Some entry
      /\ orNoDescription (description entry)
         = (scrapeTokenDescription load net a true st0).1.
Proof.
  intros Hnd Hcalls. revert st1.
  induction Hcalls as [|a0 c0 addrs calls Hc0 Hcalls IH]; intros st1 Hsame a Ha.
  { by apply elem_of_nil in Ha. }
  apply NoDup_cons in Hnd as [Hnotin Hnd]. simpl.
  destruct (finish load c0 st1) as [d st1'] eqn:Ef.
  assert (st1' = (finish load c0 st1).2) as Hst1' by by rewrite Ef.
  pose proof (finishes_spec load calls st1') as Hrest.
  destruct (mapState (finish load) calls st1') as [descs st2] eqn:Em.
  destruct Hrest as (_ & _ & Hkeep & _). cbn [snd].
  assert (forall b, b ∈ addrs ->
            cache st1' !! b = cache st0 !! b) as Hsame'.
  { intros b Hb. rewrite Hst1', finish_other; [apply Hsame; by right|].
    intros p ->. symmetry in Hc0. apply start_awaiting in Hc0. congruence. }
  apply elem_of_cons in Ha as [->|Ha].
  - destruct (finish_start_entry a0 st0 st1 (Hsame a0 ltac:(by left)))
      as (entry & He & Hd).
    exists entry. split; [|done]. rewrite Hkeep; [by rewrite Hst1', Hc0|].
    intros p (i & Hi)%list_elem_of_lookup.
    destruct (Forall2_lookup_r _ _ _ _ _ Hcalls Hi) as (b & Hb & Hcall).
    symmetry in Hcall. apply start_awaiting in Hcall. subst b.
    apply Hnotin. apply list_elem_of_lookup. by exists i.
  - specialize (IH Hnd st1' Hsame' a Ha). by rewrite Em in IH.
Qed.

Lemma processBatch_caches (addrs : list string) (st : state) :
  NoDup addrs ->
  forall a, a ∈ addrs ->
    exists entry,
      cache (processBatch load net addrs st).2 !! a = Some entry
      /\ orNoDescription (description entry)
         = (scrapeTokenDescription load net a true st).1.
Proof.
  intros Hnd a Ha. unfold processBatch.
  pose proof (starts_exact net addrs st st Hnd (fun b _ => conj eq_refl eq_refl)) as H1.
  pose proof (starts_spec net addrs st) as H1'.
  destruct (mapState _ addrs st) as [calls st1].
  destruct H1 as [Hcalls _]. destruct H1' as (Hc & _ & _).
  pose proof (finishes_cached addrs calls st st1 Hnd Hcalls
                (fun b _ => f_equal (fun m => m !! b) Hc) a Ha) as H2.
  by destruct (mapState (finish load) calls st1) as [descs st2].
Qed.

Lemma batchLoop_caches (fuel i : nat) (addrs : list string)
    (results : gmap string string) (st : state) :
  (length addrs - i <= fuel)%nat ->
  NoDup (List.skipn i addrs) ->
  forall a, a ∈ List.skipn i addrs ->
    exists entry,
      cache (batchLoop load net fuel i addrs results st).2 !! a = Some entry
      /\ orNoDescription (description entry)
         = (scrapeTokenDescription load net a true st).1.
Proof.
  revert i results st. induction fuel as [|fuel IH]; intros i results st Hfuel Hnd a Ha.
  { rewrite List.skipn_all2 in Ha by lia. by apply elem_of_nil in Ha. }
  simpl. destruct (Nat.ltb_spec i (length addrs)) as [Hi|Hi].
  2:{ rewrite List.skipn_all2 in Ha by lia. by apply elem_of_nil in Ha. }
  rewrite <- (slice_rest i (batchSize config) addrs) in Hnd, Ha.
  apply NoDup_app in Hnd as (Hnd1 & Hdisj & Hnd2).
  pose proof (processBatch_caches _ st Hnd1) as Hcached.
  pose proof (processBatch_exact load net _ st Hnd1) as Hexact.
  destruct (processBatch _ _ _ st) as [batchResults st1].
  destruct Hexact as [_ Hsame]. cbn [snd] in Hcached.
  pose proof (batchLoop_spec load net fuel (i + batchSize config) addrs
                (batchResults ∪ results) st1) as Hspec.
  specialize (IH (i + batchSize config)%nat (batchResults ∪ results) st1).
  destruct (batchLoop _ _ fuel _ addrs _ st1) as [results' st'].
  destruct Hspec as ([K _] & _); [simpl; lia|]. cbn [snd] in *.
  apply elem_of_app in Ha as [Ha|Ha].
  - destruct (Hcached a Ha) as (entry & He & Hd). exists entry.
    split; [by apply K | done].
  - destruct (IH ltac:(simpl; lia) Hnd2 a Ha) as (entry & He & Hd).
    exists entry. split; [done|]. rewrite Hd.
    apply scrape_sameFor, Hsame. intros Hb. by apply (Hdisj a).
Qed.

Lemma starts_all_cached (addrs : list string) (st : state) :
  (forall a, a ∈ addrs -> uncached st a = false) ->
  let '(calls, st1) := mapState (fun a => start net a true) addrs st in
  st1 = st /\ Forall (fun c => returned c = true) calls.
Proof.
  induction addrs as [|a addrs IH]; intros Hall; simpl; [done|].
  assert (uncached st a = false) as Ha by (apply Hall; by left).
  unfold uncached in Ha. unfold start at 1.
  destruct (cache st !! a) as [entry|]; [|done].
  destruct (mapState _ addrs st) as [calls st1].
  destruct IH as [-> Hcalls]; [intros b Hb; apply Hall; by right|].
  split; [done | by constructor].
Qed.

Lemma finishes_all_returned (calls : list call) (st : state) :
  Forall (fun c => returned c = true) calls ->
  (mapState (finish load) calls st).2 = st.
Proof.
  induction 1 as [|c calls Hc _ IH]; simpl; [done|].
  destruct c; [|done]. simpl.
  by destruct (mapState (finish load) calls st).
Qed.

Lemma processBatch_all_cached (addrs : list string) (st : state) :
  (forall a, a ∈ addrs -> uncached st a = false) ->
  (processBatch load net addrs st).2 = st.
Proof.
  intros Hall. unfold processBatch.
  pose proof (starts_all_cached addrs st Hall) as H1.
  destruct (mapState _ addrs st) as [calls st1]. destruct H1 as [-> Hcalls].
  pose proof (finishes_all_returned calls st Hcalls) as H2.
  by destruct (mapState (finish load) calls st).
Qed.

Lemma slice_subset {A : Type} (i j : nat) (l : list A) (x : A) :
  x ∈ slice i j l -> x ∈ l.
Proof.
  unfold slice. intros H.
  rewrite <- (List.firstn_skipn i l), <- (List.firstn_skipn (j - i) (List.skipn i l)).
  apply elem_of_app. right. apply elem_of_app. by left.
Qed.

Lemma batchLoop_all_cached (fuel i : nat) (addrs : list string)
    (results : gmap string string) (st : state) :
  (forall a, a ∈ addrs -> uncached st a = false) ->
  (batchLoop load net fuel i addrs results st).2 = st.
Proof.
  intros Hall. revert i results. induction fuel as [|fuel IH]; intros i results;
    simpl; [done|].
  destruct (i <? length addrs)%nat; [|done].
  pose proof (processBatch_all_cached (slice i (i + batchSize config) addrs) st) as Hb.
  destruct (processBatch _ _ _ st) as [batchResults st1]. simpl in Hb.
  rewrite Hb; [apply IH|]. intros a Ha. apply Hall. by eapply slice_subset.
Qed.

(** X10.  Scraping a list without duplicates a second time returns the same
    mapping and leaves the scraper as it is: every token of the list is
    cached by the first run, a failed one as well, and the second run
    issues no request. *)
Theorem batch_idempotent (ids : list string) (st : state) :
  NoDup ids ->
  let first := scrapeMultipleTokens load net ids st in
  scrapeMultipleTokens load net ids first.2 = first.
Proof.
  intros Hnd. cbv zeta. unfold scrapeMultipleTokens.
  pose proof (batchLoop_caches (length ids) 0 ids ∅ st ltac:(lia) Hnd) as Hcached.
  pose proof (batchLoop_exact load net (length ids) 0 ids ∅ st Hnd) as Hexact1.
  pose proof (batchLoop_spec load net (length ids) 0 ids ∅ st ltac:(lia)) as Hspec1.
  destruct (batchLoop load net (length ids) 0 ids ∅ st) as [r1 st1].
  destruct Hspec1 as (_ & Hdom1 & _). cbn [fst snd] in *.
  assert (forall a, a ∈ ids -> uncached st1 a = false) as Hall.
  { intros a Ha. destruct (Hcached a Ha) as (entry & He & _).
    unfold uncached. by rewrite He. }
  pose proof (batchLoop_all_cached (length ids) 0 ids ∅ st1 Hall) as Hst.
  pose proof (batchLoop_exact load net (length ids) 0 ids ∅ st1 Hnd) as Hexact2.
  pose proof (batchLoop_spec load net (length ids) 0 ids ∅ st1 ltac:(lia)) as Hspec2.
  destruct (batchLoop load net (length ids) 0 ids ∅ st1) as [r2 st2].
  destruct Hspec2 as (_ & Hdom2 & _). cbn [fst snd] in *. subst st2.
  f_equal. apply map_eq. intros a.
  destruct (r2 !! a) as [d2|] eqn:E2.
  - destruct (Hexact2 a d2 E2) as [H|[Ha ->]]; [by rewrite lookup_empty in H|].
    destruct (Hcached a Ha) as (entry & He & Hd).
    rewrite (scrape_cached _ _ _ _ _ _ He). cbn [fst]. rewrite Hd.
    assert (is_Some (r1 !! a)) as [d1 E1].
    { apply elem_of_dom. rewrite Hdom1. set_solver. }
    rewrite E1. f_equal.
    destruct (Hexact1 a d1 E1) as [H|[_ ->]]; [by rewrite lookup_empty in H | done].
  - symmetry. apply not_elem_of_dom. rewrite Hdom1, <- Hdom2.
    by apply not_elem_of_dom.
Qed.

Lemma starts_requests (addrs : list string) (st : state) :
  requests (mapState (fun a => start net a true) addrs st).2
  = requests st ++ List.map pageUrl (List.filter (uncached st) addrs).
Proof.
  assert (forall st', cache st' = cache st ->
    requests (mapState (fun a => start net a true) addrs st').2
    = requests st' ++ List.map pageUrl (List.filter (uncached st) addrs)) as H;
    [|by apply H].
  induction addrs as [|a addrs IH]; intros st' Hc; simpl.
  { by rewrite app_nil_r. }
  unfold start at 1, uncached at 1. rewrite Hc.
  destruct (cache st !! a) as [entry|].
  - specialize (IH st' Hc). by destruct (mapState _ addrs st').
  - specialize (IH {| cache := cache st; requests := requests st' ++ [pageUrl a] |}
                  eq_refl).
    destruct (mapState _ addrs _) as [calls st1]. simpl in *.
    by rewrite IH, <- app_assoc.
Qed.

Lemma processBatch_requests (addrs : list string) (st : state) :
  requests (processBatch load net addrs st).2
  = requests st ++ List.map pageUrl (List.filter (uncached st) addrs).
Proof.
  unfold processBatch. pose proof (starts_requests addrs st) as H1.
  destruct (mapState _ addrs st) as [calls st1].
  pose proof (finishes_spec load calls st1) as H2.
  destruct (mapState (finish load) calls st1) as [descs st2].
  destruct H2 as (_ & Hreq & _). simpl in *. by rewrite Hreq.
Qed.

(** X11.  For a list without duplicates, [scrapeMultipleTokens] requests the
    pages of exactly the tokens that are not in the cache, once each
    and in the order of the list; with every token cached, or with an
    empty list, it requests nothing. *)
Theorem batch_requests (ids : list string) (st : state) :
  NoDup ids ->
  requests (scrapeMultipleTokens load net ids st).2
  = requests st ++ List.map pageUrl (List.filter (uncached st) ids).
Proof.
  unfold scrapeMultipleTokens.
  assert (forall fuel i results st',
    (length ids - i <= fuel)%nat ->
    NoDup (List.skipn i ids) ->
    (forall a, a ∈ List.skipn i ids -> cache st' !! a = cache st !! a) ->
    requests (batchLoop load net fuel i ids results st').2
    = requests st' ++ List.map pageUrl (List.filter (uncached st) (List.skipn i ids)))
    as H.
  2:{ intros Hnd. by apply (H (length ids) 0 ∅ st ltac:(lia) Hnd). }
  induction fuel as [|fuel IH]; intros i results st' Hfuel Hnd Hsame.
  { rewrite List.skipn_all2 by lia. simpl. by rewrite app_nil_r. }
  simpl. destruct (Nat.ltb_spec i (length ids)) as [Hi|Hi].
  2:{ rewrite List.skipn_all2 by lia. simpl. by rewrite app_nil_r. }
  rewrite <- (slice_rest i (batchSize config) ids) in Hnd, Hsame |- *.
  apply NoDup_app in Hnd as (Hnd1 & Hdisj & Hnd2).
  pose proof (processBatch_requests (slice i (i + batchSize config) ids) st') as Hreq.
  pose proof (processBatch_exact load net _ st' Hnd1) as Hexact.
  destruct (processBatch _ _ _ st') as [batchResults st1].
  destruct Hexact as [_ Hkeep]. cbn [snd] in Hreq.
  rewrite IH; [|simpl; lia|done|].
  - rewrite Hreq, List.filter_app, List.map_app, <- app_assoc. do 3 f_equal.
    apply List.filter_ext_in. intros a Ha%list_elem_of_In.
    unfold uncached. rewrite Hsame; [done|]. apply elem_of_app. by left.
  - intros a Ha. destruct (Hkeep a) as [Hc _]; [intros Hb; by apply (Hdisj a)|].
    rewrite Hc. apply Hsame, elem_of_app. by right.
Qed.

End BatchMore.

Lemma batch_idempotent_witness :
  let first :=
    PumpFunScraper.scrapeMultipleTokens Sample.load Sample.net ["X"; "Q"; "T"; "Z"]
      PumpFunScraper.initial in
  PumpFunScraper.scrapeMultipleTokens Sample.load Sample.net ["X"; "Q"; "T"; "Z"]
    first.2 = first.
Proof.
  apply (batch_idempotent Sample.load Sample.net ["X"; "Q"; "T"; "Z"]
           PumpFunScraper.initial).
  apply (bool_decide_unpack _). reflexivity.
Defined.

Lemma batch_requests_witness :
  let st1 :=
    (PumpFunScraper.scrapeTokenDescription Sample.load Sample.net "Q" false
       PumpFunScraper.initial).2 in
  PumpFunScraper.requests
    (PumpFunScraper.scrapeMultipleTokens Sample.load Sample.net ["X"; "Q"; "T"] st1).2
  = ["https://pump.fun/Q"; "https://pump.fun/X"; "https://pump.fun/T"].
Proof.
  intros st1.
  rewrite (batch_requests Sample.load Sample.net ["X"; "Q"; "T"] st1).
  - reflexivity.
  - apply (bool_decide_unpack _). reflexivity.
Defined.

Lemma failure_is_cached_witness :
  PumpFunScraper.scrapeTokenDescription Sample.load Sample.net "Z" true
    PumpFunScraper.initial
  = (Scraper.noDescription,
     {| PumpFunScraper.cache :=
          {[ "Z" := {| PumpFunScraper.description := None;
                       PumpFunScraper.error := Some "HTTP 404: Not Found" |} ]};
        PumpFunScraper.requests := ["https://pump.fun/Z"] |}).
Proof.
  destruct (failure_is_cached Sample.load Sample.net "Z" true PumpFunScraper.initial
              eq_refl) as (_ & _ & H).
  exact (H _ eq_refl eq_refl).
Defined.

Lemma scrape_never_empty_witness :
  let r :=
    PumpFunScraper.scrapeTokenDescription Sample.load
      (fun _ _ => Sample.respond "<blank>") "B" true PumpFunScraper.initial in
  r.1 <> EmptyString /\ PumpFunScraper.requests r.2 = ["https://pump.fun/B"].
Proof.
  intros r. subst r.
  pose proof (scrape_never_empty Sample.load (fun _ _ => Sample.respond "<blank>")
                "B" true PumpFunScraper.initial) as H.
  destruct (PumpFunScraper.scrapeTokenDescription _ _ "B" true _) as [d st'].
  destruct H as (H1 & H2). destruct (H2 eq_refl) as (Hreq & _).
  split; [exact H1 | exact Hreq].
Defined.

Lemma eviction_is_local_witness :
  let st1 :=
    (PumpFunScraper.scrapeMultipleTokens Sample.load Sample.net ["X"; "T"]
       PumpFunScraper.initial).2 in
  (PumpFunScraper.scrapeTokenDescription Sample.load Sample.net "T" true
     (PumpFunScraper.clearTokenFromCache "X" st1)).1
  = "The first dog on the moon".
Proof.
  intros st1.
  rewrite (proj2 (eviction_is_local Sample.load Sample.net "X" "T" true st1));
    [reflexivity | discriminate].
Defined.

(** ** The enrichment: what it never changes *)

Section EnrichmentMore.
Import JS Scraper Net Api Enrichment.

Variable load : string -> option Dom.document.
Variable net : network.
Variable JSON_parse : string -> option parsed.

Lemma mergeLoop_fields (scraped : gmap string string) (tokens : list PumpCoin) :
  List.map address (mergeLoop scraped tokens) = List.map address tokens
  /\ List.map name (mergeLoop scraped tokens) = List.map name tokens
  /\ List.map symbol (mergeLoop scraped tokens) = List.map symbol tokens.
Proof.
  induction tokens as [|token rest (IH1 & IH2 & IH3)]; simpl; [done|].
  rewrite IH1, IH2, IH3.
  destruct (scraped !! address token) as [d|]; [|done].
  by destruct (_ && _).
Qed.

(** X12.  The enrichment never adds, drops or reorders a token and never
    changes an address, a name or a symbol, whatever the pages hold and
    whether or not the scraping is in time; so does [getPumpList] with
    the list the upstream delivers. *)
Theorem enrichment_keeps_tokens (tokens : list PumpCoin) (elapsed : option N)
    (st : PumpFunScraper.state) :
  let enhanced := enhanceTokensWithDescriptions load net tokens elapsed st in
  (List.map address enhanced = List.map address tokens
   /\ List.map name enhanced = List.map name tokens
   /\ List.map symbol enhanced = List.map symbol tokens)
  /\ (forall response, delivers JSON_parse response tokens ->
        List.map address (getPumpList load net JSON_parse response elapsed st)
        = List.map address tokens).
Proof.
  cbv zeta.
  assert (List.map address (enhanceTokensWithDescriptions load net tokens elapsed st)
          = List.map address tokens
          /\ List.map name (enhanceTokensWithDescriptions load net tokens elapsed st)
             = List.map name tokens
          /\ List.map symbol (enhanceTokensWithDescriptions load net tokens elapsed st)
             = List.map symbol tokens) as H.
  { unfold enhanceTokensWithDescriptions.
    destruct (_ =? 0)%nat; [done|].
    destruct (race elapsed _) as [scraped|]; [apply mergeLoop_fields | done]. }
  split; [done|]. intros response Hd.
  rewrite (getPumpList_delivers load net JSON_parse _ _ _ _ Hd). apply H.
Qed.



End EnrichmentMore.

Lemma enrichment_keeps_tokens_witness :
  List.map Api.address
    (Api.getPumpList Sample.load Sample.net Sample.JSON_parse
       (Sample.respond "{rank: A}") (Some 100%N) PumpFunScraper.initial)
  = ["X"; "Y"].
Proof.
  apply (proj2 (enrichment_keeps_tokens Sample.load Sample.net Sample.JSON_parse
                  Sample.scenarioA (Some 100%N) PumpFunScraper.initial)).
  eexists _, _. repeat split; reflexivity.
Defined.


(** ** Address formatting *)

Section FormatFacts.
Import Format.

Lemma substring_empty (n m : nat) : String.substring n m EmptyString = EmptyString.
Proof. by destruct n, m. Qed.

Lemma substring_add (s : string) (a b c : nat) :
  String.substring a (b + c) s
  = String.substring a b s +:+ String.substring (a + b) c s.
Proof.
  revert a b. induction s as [|x s IH]; intros a b.
  { by rewrite !substring_empty. }
  destruct a as [|a]; [|apply IH].
  destruct b as [|b]; [done|]. cbn [String.substring Nat.add].
  rewrite append_cons. f_equal. apply (IH 0%nat b).
Qed.

Lemma substring_all (s : string) : String.substring 0 (String.length s) s = s.
Proof. induction s as [|x s IH]; simpl; [done | by rewrite IH]. Qed.

Lemma substring_length (s : string) (a b : nat) :
  (a + b <= String.length s)%nat -> String.length (String.substring a b s) = b.
Proof.
  revert a b. induction s as [|x s IH]; intros a b H; simpl in H.
  { rewrite substring_empty. simpl. lia. }
  destruct a as [|a]; [|apply IH; lia].
  destruct b as [|b]; [done|]. simpl. f_equal. apply IH. lia.
Qed.

(** X14.  [formatAddress] keeps the first five and the last four characters
    of an address of nine characters or more, with three dots between:
    twelve characters, whatever the length.  An address of four
    characters or fewer comes out twice, around the dots. *)
Theorem formatAddress_shape (addr : string) :
  ((9 <= String.length addr)%nat ->
     exists first middle last,
       addr = first +:+ middle +:+ last
       /\ String.length first = 5%nat /\ String.length last = 4%nat
       /\ formatAddress addr = first +:+ "..." +:+ last)
  /\ ((String.length addr <= 4)%nat ->
       formatAddress addr = addr +:+ "..." +:+ addr).
Proof.
  unfold formatAddress, substring, substr. cbn [Z.ltb Z.compare].
  set (n := String.length addr). split; intros Hn.
  - exists (String.substring 0 5 addr), (String.substring 5 (n - 9) addr),
      (String.substring (n - 4) 4 addr).
    replace (Nat.min (Nat.min 0 5) n) with 0%nat by lia.
    replace (Nat.min (Nat.max 0 5) n - 0)%nat with 5%nat by lia.
    replace (Z.to_nat (Z.max (Z.of_nat n + -4) 0)) with (n - 4)%nat by lia.
    replace (n - (n - 4))%nat with 4%nat by lia.
    split; [|split; [|split]]; [|apply substring_length; lia
                                |apply substring_length; lia|done].
    rewrite <- (substring_all addr) at 1. fold n.
    replace n with (5 + ((n - 9) + 4))%nat at 1 by lia.
    rewrite (substring_add addr 0 5), (substring_add addr (0 + 5) (n - 9)).
    do 3 f_equal. lia.
  - replace (Nat.min (Nat.min 0 5) n) with 0%nat by lia.
    replace (Nat.min (Nat.max 0 5) n - 0)%nat with n by lia.
    replace (Z.to_nat (Z.max (Z.of_nat n + -4) 0)) with 0%nat by lia.
    replace (n - 0)%nat with n by lia. unfold n. by rewrite substring_all.
Qed.

End FormatFacts.

Lemma formatAddress_shape_witness :
  Format.formatAddress "EDuHvMKwAddbhxN8CsFzKA38uBL9iEz8ToHB97ZDpump" = "EDuHv...pump"
  /\ Format.formatAddress "abc" = "abc...abc".
Proof.
  split.
  - destruct (proj1 (formatAddress_shape "EDuHvMKwAddbhxN8CsFzKA38uBL9iEz8ToHB97ZDpump"))
      as (first & middle & last & _ & _ & _ & H).
    + apply Nat.leb_le. reflexivity.
    + reflexivity.
  - apply (proj2 (formatAddress_shape "abc")). apply Nat.leb_le. reflexivity.
Defined.

(** ** The transaction manager *)

Section TransactionFacts.
Import JS Net TransactionManager Transactions Attempts.

(** X15.  An update never creates an entry: for an identifier the manager does
    not know, and so after [removeTransaction], it changes nothing.
    Adding, updating and removing one transaction leave the status of
    every other one as it is. *)
Theorem manager_updates_are_local (id : string) (sig : option string)
    (status : PartialStatus) (m : gmap string TransactionStatus) :
  (getTransactionStatus id m = None -> updateTransactionStatus id status m = m)
  /\ updateTransactionStatus id status (removeTransaction id m) = removeTransaction id m
  /\ (forall other, other <> id ->
        getTransactionStatus other (addPendingTransaction id sig m)
        = getTransactionStatus other m
        /\ getTransactionStatus other (updateTransactionStatus id status m)
           = getTransactionStatus other m
        /\ getTransactionStatus other (removeTransaction id m)
           = getTransactionStatus other m).
Proof.
  unfold getTransactionStatus, updateTransactionStatus, removeTransaction,
    addPendingTransaction.
  split; [by intros ->|]. split; [by rewrite lookup_delete_eq|].
  intros other Hne. split; [by apply lookup_insert_ne|].
  split; [|by apply lookup_delete_ne].
  destruct (m !! id); [by apply lookup_insert_ne | done].
Qed.

Lemma failWith_status (message id : string) (m : gmap string TransactionStatus)
    (existing : TransactionStatus) :
  m !! id = Some existing ->
  (failWith message id m).2 !! id
  = Some {| pending := false; confirmed := confirmed existing; failed := true;
            TransactionManager.signature := TransactionManager.signature existing;
            TransactionManager.error := Some message |}.
Proof.
  intros H. unfold failWith, updateTransactionStatus. cbn [snd]. rewrite H.
  by rewrite lookup_insert_eq.
Qed.

(** X16.  When nothing else touches the manager meanwhile, the status that
    [executeTransaction] leaves mirrors its result, whatever status the
    identifier had before: not pending, confirmed exactly on success,
    failed otherwise, with the signature and the error of the result.
    The call succeeds exactly when the transaction function resolves to
    a signature that is not empty.  The entry is never removed, and no
    other transaction is touched. *)
Theorem execute_leaves_final_status (outcome : settled (option string))
    (id : string) (m : gmap string TransactionStatus) :
  let '(result, m') := executeTransaction outcome id m in
  getTransactionStatus id m'
  = Some {| pending := false;
            confirmed := success result;
            failed := negb (success result);
            TransactionManager.signature := signature result;
            TransactionManager.error := error result |}
  /\ (success result = true <-> exists sig, signatureOf outcome = Some sig)
  /\ (forall sig, signatureOf outcome = Some sig -> signature result = Some sig)
  /\ (forall other, other <> id ->
        getTransactionStatus other m' = getTransactionStatus other m).
Proof.
  unfold executeTransaction, executeStart, executeFinish, getTransactionStatus.
  set (m1 := addPendingTransaction id None m).
  assert (m1 !! id = Some {| pending := true; confirmed := false; failed := false;
                             TransactionManager.signature := None;
                             TransactionManager.error := None |}) as H1
    by apply lookup_insert_eq.
  assert (forall other status, other <> id ->
            updateTransactionStatus id status m1 !! other = m !! other) as Hother.
  { intros other status Hne. unfold updateTransactionStatus. rewrite H1.
    rewrite lookup_insert_ne by done. by apply lookup_insert_ne. }
  assert (forall message,
    let '(result, m') := failWith message id m1 in
    m' !! id = Some {| pending := false; confirmed := success result;
                       failed := negb (success result);
                       TransactionManager.signature := signature result;
                       TransactionManager.error := error result |}
    /\ (success result = true <-> exists sig : string, None = Some sig)
    /\ (forall other, other <> id -> m' !! other = m !! other)) as Hfail.
  { intros message. pose proof (failWith_status message id m1 _ H1) as H.
    unfold failWith in *. cbn [snd] in H. split; [exact H|].
    split; [|by intros; apply Hother]. split; [done | by intros [? ?]]. }
  destruct outcome as [[sig|]|e]; cbn [signatureOf].
  - destruct (truthy sig) eqn:Ht.
    + split; [|split; [|split]]; cbn [success signature error negb].
      * unfold updateTransactionStatus. rewrite H1. by rewrite lookup_insert_eq.
      * split; [by exists sig | done].
      * by intros ? [= <-].
      * by intros; apply Hother.
    + specialize (Hfail "Transaction failed").
      destruct (failWith _ id m1) as [result m']. destruct Hfail as (? & ? & ?).
      repeat split; try tauto. done.
  - specialize (Hfail "Transaction failed").
    destruct (failWith _ id m1) as [result m']. destruct Hfail as (? & ? & ?).
    repeat split; try tauto. done.
  - specialize (Hfail (errorMessage e)).
    destruct (failWith _ id m1) as [result m']. destruct Hfail as (? & ? & ?).
    repeat split; try tauto. done.
Qed.

(** X17.  A transaction that was removed while its function was running is
    not created again when the function settles: the manager stays as
    it is, and the result is reported all the same. *)
Theorem execute_after_removal (outcome : settled (option string)) (id : string)
    (m : gmap string TransactionStatus) :
  getTransactionStatus id m = None ->
  (executeFinish outcome id m).2 = m
  /\ (success (executeFinish outcome id m).1 = true
      <-> exists sig, signatureOf outcome = Some sig).
Proof.
  unfold getTransactionStatus, executeFinish. intros Hnone.
  assert (forall status, updateTransactionStatus id status m = m) as Hupd.
  { intros status. unfold updateTransactionStatus. by rewrite Hnone. }
  destruct outcome as [[sig|]|e]; cbn [signatureOf]; unfold failWith;
    [destruct (truthy sig)|..]; cbn [fst snd success]; rewrite Hupd;
    (split; [done|]); split; try done; try (by intros [? ?]); by eexists.
Qed.

End TransactionFacts.

Lemma manager_updates_are_local_witness :
  TransactionManager.updateTransactionStatus "tx1"
    {| TransactionManager.setPending := Some false;
       TransactionManager.setConfirmed := Some true;
       TransactionManager.setFailed := None;
       TransactionManager.setSignature := None;
       TransactionManager.setError := None |} ∅ = ∅.
Proof.
  apply (proj1 (manager_updates_are_local "tx1" None _ ∅)). reflexivity.
Defined.

Lemma execute_after_removal_witness :
  (Transactions.executeFinish (Net.Fulfilled (Some "5Nf")) "tx1" ∅).2 = ∅.
Proof.
  assert (TransactionManager.getTransactionStatus "tx1"
            (∅ : gmap string TransactionManager.TransactionStatus) = None) as H
    by reflexivity.
  exact (proj1 (execute_after_removal (Net.Fulfilled (Some "5Nf")) "tx1" ∅ H)).
Defined.

Lemma execute_leaves_final_status_witness :
  let '(result, m') :=
    Transactions.executeTransaction (Net.Fulfilled (Some "")) "tx1"
      (TransactionManager.addPendingTransaction "tx2" (Some "abc") ∅) in
  Transactions.success result = false
  /\ TransactionManager.getTransactionStatus "tx2" m'
     = TransactionManager.getTransactionStatus "tx2"
         (TransactionManager.addPendingTransaction "tx2" (Some "abc") ∅).
Proof.
  pose proof (execute_leaves_final_status (Net.Fulfilled (Some "")) "tx1"
                (TransactionManager.addPendingTransaction "tx2" (Some "abc") ∅)) as H.
  destruct (Transactions.executeTransaction _ _ _) as [result m'].
  destruct H as (_ & Hs & _ & Hother). split.
  - destruct (Transactions.success result); [|reflexivity].
    destruct (proj1 Hs eq_refl) as [sig Hsig]. discriminate Hsig.
  - apply Hother. discriminate.
Defined.

(** ** Retried transactions *)

Section RetryFacts.
Import JS Net Transactions Attempts.

Variable transactionFn : nat -> settled (option string).
Variables maxRetries delay : nat.

Lemma retryLoop_success (remaining attempt k : nat) (lastError : option string)
    (waited : list nat) (sig : string) :
  (attempt <= k < attempt + remaining)%nat ->
  signatureOf (transactionFn k) = Some sig ->
  (forall j, (attempt <= j < k)%nat -> signatureOf (transactionFn j) = None) ->
  let r := retryLoop transactionFn maxRetries delay remaining attempt lastError waited in
  settles r = Fulfilled sig /\ calls r = k.
Proof.
  revert attempt lastError waited.
  induction remaining as [|remaining IH]; intros attempt lastError waited Hk Hsig Hnone;
    [lia|].
  cbn [retryLoop]. destruct (decide (attempt = k)) as [->|Hne].
  - unfold signatureOf in Hsig.
    destruct (transactionFn k) as [[result|]|e]; try done.
    destruct (truthy result); [|done]. by injection Hsig as ->.
  - assert (signatureOf (transactionFn attempt) = None) as Hatt by (apply Hnone; lia).
    assert (forall le w,
      let r := retryLoop transactionFn maxRetries delay remaining (S attempt) le w in
      settles r = Fulfilled sig /\ calls r = k) as Hnext.
    { intros le w. apply IH; [lia | done | intros j Hj; apply Hnone; lia]. }
    unfold signatureOf in Hatt.
    destruct (transactionFn attempt) as [[result|]|e]; [|apply Hnext..].
    destruct (truthy result); [done | apply Hnext].
Qed.

Lemma retryLoop_no_throw (remaining attempt : nat) (lastError : option string)
    (waited : list nat) :
  (forall j, (attempt <= j < attempt + remaining)%nat ->
     signatureOf (transactionFn j) = None /\ throws (transactionFn j) = false) ->
  let r := retryLoop transactionFn maxRetries delay remaining attempt lastError waited in
  settles r
  = Rejected (ErrorObject (default "Transaction failed after all retries" lastError))
  /\ calls r = (attempt + remaining - 1)%nat.
Proof.
  revert attempt waited.
  induction remaining as [|remaining IH]; intros attempt waited Hnone; cbn [retryLoop].
  { unfold giveUp. cbn [settles calls]. split; [done | lia]. }
  destruct (Hnone attempt ltac:(lia)) as [Hs Ht].
  assert (let r := retryLoop transactionFn maxRetries delay remaining (S attempt)
                     lastError waited in
          settles r
          = Rejected (ErrorObject
              (default "Transaction failed after all retries" lastError))
          /\ calls r = (attempt + S remaining - 1)%nat) as Hnext.
  { cbv zeta. destruct (IH (S attempt) waited) as [H1 H2].
    - intros j Hj. apply Hnone. lia.
    - split; [done | lia]. }
  unfold signatureOf, throws in Hs, Ht.
  destruct (transactionFn attempt) as [[result|]|e]; [|apply Hnext|done].
  destruct (truthy result); [done | apply Hnext].
Qed.

Lemma retryLoop_last_throw (remaining attempt j : nat) (lastError : option string)
    (waited : list nat) (e : thrown) :
  (attempt <= j < attempt + remaining)%nat ->
  transactionFn j = Rejected e ->
  (forall i, (attempt <= i < attempt + remaining)%nat ->
     signatureOf (transactionFn i) = None) ->
  (forall i, (j < i < attempt + remaining)%nat -> throws (transactionFn i) = false) ->
  let r := retryLoop transactionFn maxRetries delay remaining attempt lastError waited in
  settles r = Rejected (ErrorObject (errorMessage e))
  /\ calls r = (attempt + remaining - 1)%nat.
Proof.
  revert attempt lastError waited.
  induction remaining as [|remaining IH]; intros attempt lastError waited Hj He Hnone Hlater;
    [lia|].
  cbn [retryLoop]. destruct (decide (attempt = j)) as [->|Hne].
  - rewrite He.
    destruct (retryLoop_no_throw remaining (S j) (Some (errorMessage e))
                (if (j <? maxRetries)%nat then waited ++ [(delay * j)%nat] else waited))
      as [H1 H2].
    + intros i Hi. split; [apply Hnone; lia | apply Hlater; lia].
    + split; [done | lia].
  - assert (forall le w,
      let r := retryLoop transactionFn maxRetries delay remaining (S attempt) le w in
      settles r = Rejected (ErrorObject (errorMessage e))
      /\ calls r = (attempt + S remaining - 1)%nat) as Hnext.
    { intros le w. cbv zeta. destruct (IH (S attempt) le w) as [H1 H2]; try done.
      - lia.
      - intros i Hi. apply Hnone. lia.
      - intros i Hi. apply Hlater. lia.
      - split; [done | lia]. }
    pose proof (Hnone attempt ltac:(lia)) as Hs. unfold signatureOf in Hs.
    destruct (transactionFn attempt) as [[result|]|e']; [|apply Hnext..].
    destruct (truthy result); [done | apply Hnext].
Qed.

Lemma retryLoop_exhausted (remaining attempt : nat) (lastError : option string)
    (waited : list nat) :
  (forall j, (attempt <= j < attempt + remaining)%nat ->
     signatureOf (transactionFn j) = None) ->
  calls (retryLoop transactionFn maxRetries delay remaining attempt lastError waited)
  = (attempt + remaining - 1)%nat.
Proof.
  revert attempt lastError waited.
  induction remaining as [|remaining IH]; intros attempt lastError waited Hnone;
    cbn [retryLoop].
  { unfold giveUp. cbn [calls]. lia. }
  assert (forall le w,
    calls (retryLoop transactionFn maxRetries delay remaining (S attempt) le w)
    = (attempt + S remaining - 1)%nat) as Hnext.
  { intros le w. rewrite IH; [lia|]. intros j Hj. apply Hnone. lia. }
  pose proof (Hnone attempt ltac:(lia)) as Hs. unfold signatureOf in Hs.
  destruct (transactionFn attempt) as [[result|]|e]; [|apply Hnext..].
  destruct (truthy result); [done | apply Hnext].
Qed.

(** X18.  [retryTransaction] returns the first signature that one of the
    first [maxRetries] attempts gives, and calls the function no further:
    an attempt that resolves to null or to the empty string counts as a
    failure, like one that throws. *)
Theorem retry_returns_first_signature (k : nat) (sig : string) :
  (1 <= k <= maxRetries)%nat ->
  signatureOf (transactionFn k) = Some sig ->
  (forall j, (1 <= j < k)%nat -> signatureOf (transactionFn j) = None) ->
  let r := retryTransaction transactionFn maxRetries delay in
  settles r = Fulfilled sig /\ calls r = k.
Proof.
  intros Hk Hsig Hnone. apply retryLoop_success; [lia | done | done].
Qed.

(** X19.  When none of the [maxRetries] attempts gives a signature,
    [retryTransaction] calls the function [maxRetries] times and
    rejects: with the default message when no attempt threw, in
    particular when [maxRetries] is 0, and else with the error of the
    last attempt that threw, even when later attempts resolved to
    null. *)
Theorem retry_gives_up :
  (forall j, (1 <= j <= maxRetries)%nat -> signatureOf (transactionFn j) = None) ->
  let r := retryTransaction transactionFn maxRetries delay in
  calls r = maxRetries
  /\ ((forall j, (1 <= j <= maxRetries)%nat -> throws (transactionFn j) = false) ->
      settles r = Rejected (ErrorObject "Transaction failed after all retries"))
  /\ (forall j e, (1 <= j <= maxRetries)%nat ->
        transactionFn j = Rejected e ->
        (forall i, (j < i <= maxRetries)%nat -> throws (transactionFn i) = false) ->
        settles r = Rejected (ErrorObject (errorMessage e))).
Proof.
  intros Hnone. cbv zeta. unfold retryTransaction. split; [|split].
  - rewrite (retryLoop_exhausted maxRetries 1 None []); [lia|].
    intros j Hj. apply Hnone. lia.
  - intros Hno. apply (retryLoop_no_throw maxRetries 1 None []).
    intros j Hj. split; [apply Hnone; lia | apply Hno; lia].
  - intros j e Hj He Hlater.
    apply (retryLoop_last_throw maxRetries 1 j None [] e); try done.
    + lia.
    + intros i Hi. apply Hnone. lia.
    + intros i Hi. apply Hlater. lia.
Qed.

Lemma retryLoop_waits (remaining attempt : nat) (lastError : option string)
    (waited : list nat) :
  (attempt + remaining = S maxRetries)%nat -> (1 <= attempt)%nat ->
  let r := retryLoop transactionFn maxRetries delay remaining attempt lastError waited in
  (attempt - 1 <= calls r <= maxRetries)%nat
  /\ ((1 <= remaining)%nat -> (attempt <= calls r)%nat)
  /\ waits r
     = waited ++ List.map (fun j => (delay * j)%nat)
                  (List.filter (fun j => throws (transactionFn j))
                     (List.seq attempt (calls r - attempt))).
Proof.
  revert attempt lastError waited.
  induction remaining as [|remaining IH]; intros attempt lastError waited Hsum Hatt;
    cbn [retryLoop].
  { unfold giveUp. cbn [calls waits].
    replace (attempt - 1 - attempt)%nat with 0%nat by lia. simpl.
    rewrite app_nil_r. repeat split; lia. }
  assert (forall le,
    throws (transactionFn attempt) = false ->
    let r := retryLoop transactionFn maxRetries delay remaining (S attempt) le waited in
    (attempt - 1 <= calls r <= maxRetries)%nat
    /\ ((1 <= S remaining)%nat -> (attempt <= calls r)%nat)
    /\ waits r
       = waited ++ List.map (fun j => (delay * j)%nat)
                    (List.filter (fun j => throws (transactionFn j))
                       (List.seq attempt (calls r - attempt)))) as Hquiet.
  { intros le Hthrow. cbv zeta.
    destruct (IH (S attempt) le waited ltac:(lia) ltac:(lia)) as (Hb & _ & Hw).
    split; [lia|]. split; [lia|]. rewrite Hw. f_equal.
    destruct (decide (calls (retryLoop transactionFn maxRetries delay remaining
                               (S attempt) le waited) = attempt)) as [->|Hne].
    - by replace (attempt - S attempt)%nat with 0%nat by lia; rewrite Nat.sub_diag.
    - match goal with |- context [(?c - attempt)%nat] =>
        replace (c - attempt)%nat with (S (c - S attempt)) by lia end.
      cbn [List.seq List.filter]. by rewrite Hthrow. }
  destruct (transactionFn attempt) as [[result|]|e] eqn:E.
  - destruct (truthy result); [|by apply Hquiet].
    cbn [calls waits]. rewrite Nat.sub_diag. simpl. rewrite app_nil_r.
    repeat split; lia.
  - by apply Hquiet.
  - destruct (Nat.ltb_spec attempt maxRetries) as [Hlt|Hge].
    + destruct (IH (S attempt) (Some (errorMessage e))
                  (waited ++ [(delay * attempt)%nat]) ltac:(lia) ltac:(lia))
        as (Hb & Hlow & Hw).
      specialize (Hlow ltac:(lia)).
      split; [lia|]. split; [lia|]. rewrite Hw, <- app_assoc. f_equal.
      match goal with |- context [(?c - attempt)%nat] =>
        replace (c - attempt)%nat with (S (c - S attempt)) by lia end.
      cbn [List.seq List.filter]. by rewrite E.
    + destruct (IH (S attempt) (Some (errorMessage e)) waited ltac:(lia) ltac:(lia))
        as (Hb & _ & Hw).
      split; [lia|]. split; [lia|]. rewrite Hw. f_equal.
      match goal with |- context [(?c - attempt)%nat] =>
        replace (c - attempt)%nat with 0%nat by lia;
        replace (c - S attempt)%nat with 0%nat by lia end.
      done.
Qed.

(** X20.  [retryTransaction] calls the function at most [maxRetries] times,
    and waits [delay * j] milliseconds after every attempt [j] that
    threw, the last call excepted: it never waits after an attempt that
    resolved, nor before giving up. *)
Theorem retry_waits :
  let r := retryTransaction transactionFn maxRetries delay in
  (calls r <= maxRetries)%nat
  /\ waits r
     = List.map (fun j => (delay * j)%nat)
         (List.filter (fun j => throws (transactionFn j))
            (List.seq 1 (calls r - 1))).
Proof.
  cbv zeta. unfold retryTransaction.
  destruct (retryLoop_waits maxRetries 1 None [] ltac:(lia) ltac:(lia))
    as (Hb & _ & Hw).
  split; [lia | exact Hw].
Qed.

End RetryFacts.

Lemma retry_returns_first_signature_witness :
  let fn (k : nat) :=
    match k with
    | 1 => Net.Rejected (Net.ErrorObject "blockhash expired")
    | 2 => Net.Fulfilled None
    | _ => Net.Fulfilled (Some "5Nf")
    end%nat in
  let r := Transactions.retryTransaction fn 3 1000 in
  Transactions.settles r = Net.Fulfilled "5Nf" /\ Transactions.calls r = 3%nat.
Proof.
  intros fn. apply (retry_returns_first_signature fn 3 1000 3 "5Nf").
  - lia.
  - reflexivity.
  - intros j Hj. assert (j = 1 \/ j = 2)%nat as [-> | ->] by lia; reflexivity.
Defined.

Lemma retry_gives_up_witness :
  let fn (k : nat) :=
    match k with
    | 1 => Net.Rejected (Net.ErrorObject "blockhash expired")
    | _ => Net.Fulfilled None
    end%nat in
  Transactions.settles (Transactions.retryTransaction fn 3 1000)
  = Net.Rejected (Net.ErrorObject "blockhash expired").
Proof.
  intros fn.
  assert (forall j, (1 <= j <= 3)%nat -> Attempts.signatureOf (fn j) = None) as Hnone.
  { intros j Hj. assert (j = 1 \/ j = 2 \/ j = 3)%nat as [-> | [-> | ->]] by lia;
      reflexivity. }
  destruct (retry_gives_up fn 3 1000 Hnone) as (_ & _ & H).
  apply (H 1%nat (Net.ErrorObject "blockhash expired")); [lia | reflexivity |].
  intros i Hi. assert (i = 2 \/ i = 3)%nat as [-> | ->] by lia; reflexivity.
Defined.

(** ** The list the dashboard displays *)

Section DashboardFacts.
Import Api Dashboard.

Lemma positive_length {A : Type} (l : list A) : (0 <? length l)%nat = true -> l <> [].
Proof. by destruct l. Qed.

Lemma displayData_nonempty (data : option (list PumpCoin)) (lastGood : list PumpCoin) :
  displayData data lastGood <> [].
Proof.
  unfold displayData.
  destruct data as [d|]; [destruct (0 <? length d)%nat eqn:E; [by apply positive_length|]|];
    (destruct (0 <? length lastGood)%nat eqn:E'; [by apply positive_length | done]).
Qed.

(** X21.  Whatever the refreshes bring, the dashboard never displays an empty
    list. *)
Theorem display_never_empty (datas : list (option (list PumpCoin)))
    (lastGood : list PumpCoin) :
  Forall (fun shown => shown <> []) (renders datas lastGood).1.
Proof.
  revert lastGood. induction datas as [|data rest IH]; intros lastGood; simpl.
  { constructor. }
  specialize (IH (remember data lastGood)).
  destruct (renders rest (remember data lastGood)) as [more final]. simpl in *.
  constructor; [apply displayData_nonempty | done].
Qed.

Lemma renders_app (l1 l2 : list (option (list PumpCoin))) (lastGood : list PumpCoin) :
  renders (l1 ++ l2) lastGood
  = ((renders l1 lastGood).1 ++ (renders l2 (renders l1 lastGood).2).1,
     (renders l2 (renders l1 lastGood).2).2).
Proof.
  revert lastGood. induction l1 as [|data l1 IH]; intros lastGood; simpl.
  { by destruct (renders l2 lastGood). }
  rewrite IH. by destruct (renders l1 (remember data lastGood)).
Qed.

Lemma renders_failures (fails : list (option (list PumpCoin))) (lastGood : list PumpCoin) :
  Forall (fun data => isGood data = false) fails ->
  renders fails lastGood
  = (repeat (if (0 <? length lastGood)%nat then lastGood else getFallbackData)
       (length fails),
     lastGood).
Proof.
  induction 1 as [|data fails Hdata _ IH]; simpl; [done|].
  assert (remember data lastGood = lastGood
          /\ displayData data lastGood
             = if (0 <? length lastGood)%nat then lastGood else getFallbackData)
    as [-> ->].
  { unfold remember, displayData. unfold isGood in Hdata.
    destruct data as [d|]; [by rewrite Hdata | done]. }
  by rewrite IH.
Qed.

(** X22.  Once a list that is not empty has arrived, the dashboard displays
    it, and keeps displaying it through every refresh that brings
    nothing or an empty list, until a newer one arrives.  Before any
    such list has arrived it displays the demonstration token. *)
Theorem display_keeps_last_good (before fails : list (option (list PumpCoin)))
    (d lastGood : list PumpCoin) :
  d <> [] ->
  Forall (fun data => isGood data = false) fails ->
  (renders (before ++ Some d :: fails) lastGood).1
  = (renders before lastGood).1 ++ repeat d (S (length fails))
  /\ (renders fails []).1 = repeat getFallbackData (length fails).
Proof.
  intros Hd Hfails. split.
  - rewrite renders_app. cbn [fst]. f_equal. cbn [renders].
    assert ((0 <? length d)%nat = true) as Hlen.
    { destruct d; [done | reflexivity]. }
    unfold displayData at 1, remember at 1. rewrite Hlen.
    rewrite (renders_failures fails d Hfails). by rewrite Hlen.
  - by rewrite (renders_failures fails [] Hfails).
Qed.

End DashboardFacts.

Lemma display_keeps_last_good_witness :
  (Dashboard.renders [None; Some Sample.scenarioA; Some []; None] []).1
  = [Dashboard.getFallbackData; Sample.scenarioA; Sample.scenarioA; Sample.scenarioA].
Proof.
  refine (proj1 (display_keeps_last_good [None] [Some []; None] Sample.scenarioA []
                   _ _)).
  - discriminate.
  - repeat constructor.
Defined.

(** ** Normalization *)

Section NormalizeFacts.
Import JS Scraper.

Lemma collapseFrom_normalized (b : bool) (s : string) :
  Spec.normalizedFrom b s = true -> collapseFrom b s = s.
Proof.
  revert b. induction s as [|c s IH]; intros b; simpl; [done|].
  destruct (isWhiteSpace c).
  - intros [[[Hb Hc]%andb_prop _]%andb_prop Hs]%andb_prop.
    destruct b; [done|]. apply Ascii.eqb_eq in Hc as ->. by rewrite (IH true).
  - intros H. by rewrite (IH false).
Qed.

Lemma trimEnd_normalized_id (b : bool) (s : string) :
  Spec.normalizedFrom b s = true -> trimEnd s = s.
Proof.
  revert b. induction s as [|c s IH]; intros b; simpl; [done|].
  destruct (isWhiteSpace c) eqn:E.
  - intros [[_ Ht]%andb_prop Hs]%andb_prop. rewrite (IH true Hs).
    destruct s; [done | done].
  - intros H. rewrite (IH false H). destruct s; [by rewrite ?E | done].
Qed.

(** X4.  Normalizing a second time changes nothing: [normalize] leaves a
    whitespace-normalized text as it is, and its results are such
    texts. *)
Theorem normalize_idempotent (s : string) :
  normalize (normalize s) = normalize s
  /\ (Spec.whitespaceNormalized s = true -> normalize s = s).
Proof.
  assert (forall t, Spec.whitespaceNormalized t = true -> normalize t = t) as H.
  { intros t Ht. unfold normalize, trim, collapseWhiteSpace.
    unfold Spec.whitespaceNormalized in Ht.
    destruct t as [|c t]; [done|]. simpl in Ht |- *.
    destruct (isWhiteSpace c) eqn:E; [done|].
    rewrite (collapseFrom_normalized false t Ht). cbn [trimStart]. rewrite E.
    apply (trimEnd_normalized_id true). simpl. by rewrite E. }
  split; [apply H, normalize_normalized | apply H].
Qed.

End NormalizeFacts.

Lemma normalize_idempotent_witness :
  Scraper.normalize "The first dog on the moon" = "The first dog on the moon".
Proof.
  apply (proj2 (normalize_idempotent "The first dog on the moon")). reflexivity.
Defined.
